(** * EncryptedPredictionPoll: the encrypted tally and its reveal protocol

    A shallow embedding of the Solidity contract [EncryptedPredictionPoll]
    and the properties of its vote aggregation and finalisation state
    machine.  Ciphertext handles are modelled by their plaintext-equivalent
    value together with the set of identities that were granted decrypt
    permission; every transaction either returns a new contract state or
    reverts, in which case the EVM keeps the state it started from. *)

From Stdlib Require Import ZArith Lia String.
From stdpp Require Import base option list gmap sets.

Local Open Scope Z_scope.

(** ** Machine types *)

Definition address := Z.
Definition bytes := list Byte.byte.
Definition externalEuint32 := Z.

Definition MAX_UINT32 : Z := 2 ^ 32.
Definition MAX_UINT256 : Z := 2 ^ 256.
Definition MAX_ADDRESS : Z := 2 ^ 160.

(** [uint32(i)]: an explicit narrowing conversion keeps the low 32 bits. *)
Definition uint32 (i : Z) : Z := i mod MAX_UINT32.

(** ** Ciphertext handles, by what they decrypt to *)

Module FHE.

Record euint32 := mk_euint32 { plain : Z; acl : gset address }.
Record ebool := mk_ebool { plain_bool : bool }.

Definition asEuint32 (v : Z) : euint32 := mk_euint32 v ∅.

Definition eq (a b : euint32) : ebool := mk_ebool (plain a =? plain b).

Definition select (c : ebool) (a b : euint32) : euint32 :=
  if plain_bool c then mk_euint32 (plain a) ∅ else mk_euint32 (plain b) ∅.

(** Addition of encrypted 32-bit unsigned integers wraps around. *)
Definition add (a b : euint32) : euint32 :=
  mk_euint32 ((plain a + plain b) mod MAX_UINT32) ∅.

Definition allow (c : euint32) (who : address) : euint32 :=
  mk_euint32 (plain c) ({[who]} ∪ acl c).

End FHE.

(** ** What the contract consumes from outside

    The proof check of an imported ciphertext, the oracle's signature check
    and the ABI decoder are not part of the contract.  [fromExternal] yields
    the plaintext behind an accepted handle and [None] when the library
    reverts. *)

Class External := {
  this : address;
  fromExternal : externalEuint32 → bytes → address → option Z;
  checkSignatures : Z → bytes → bytes → bool;
  abi_decode : bytes → option (list Z);
  fromExternal_range : ∀ h prf who v,
    fromExternal h prf who = Some v → 0 ≤ v < MAX_UINT32;
  abi_decode_range : ∀ b l,
    abi_decode b = Some l → Forall (λ x, 0 ≤ x < MAX_UINT32) l;
}.

(** ** Contract storage *)

Record Option := mk_Option { label : string; description : string }.

Inductive Event :=
| VoteSubmitted (voter : address)
| TallyDecryptionRequested (requestId : Z)
| TallyFinalized (clearTallies : list Z).

Record Poll := mk_Poll {
  pollName : string;
  pollHeadline : string;
  pollDescription : string;
  startTime : Z;
  endTime : Z;
  creator : address;
  voterCount : Z;
  finalized : bool;
  decryptionPending : bool;
  decryptionRequestId : Z;
  _encryptedTallies : list FHE.euint32;
  _clearTallies : list Z;
  _options : list Option;
  hasVoted : gmap address bool;
  events : list Event;
}.

(** Reading a Solidity mapping: an absent key reads as [false]. *)
Definition hasVoted_at (p : Poll) (a : address) : bool :=
  default false (hasVoted p !! a).

(** ** Errors and results *)

Inductive Error :=
| InvalidOptionIndex (index : Z)
| VotingClosed
| AlreadyVoted
| DecryptionAlreadyPending
| TallyNotFinalized
| AlreadyFinalized
| UnexpectedCallback
| VotingStillOpen
| InsufficientOptions
| MismatchedOptionMetadata
| InvalidVotingDuration
| InvalidTallyLength
| Panic
| InvalidProof
| InvalidSignature
| DecodeFailure.

Inductive result (A : Type) :=
| Ok (a : A)
| Revert (e : Error).
Arguments Ok {A} a.
Arguments Revert {A} e.

(** ** The transaction environment *)

Record Env := mk_Env {
  block_timestamp : Z;
  msg_sender : address;
  oracle_request_id : Z;
}.

(** ** Constructor *)

Definition empty_poll (e : Env) (name headline desc : string) (duration : Z) : Poll :=
  {| pollName := name; pollHeadline := headline; pollDescription := desc;
     startTime := block_timestamp e;
     endTime := block_timestamp e + duration;
     creator := msg_sender e;
     voterCount := 0; finalized := false; decryptionPending := false;
     decryptionRequestId := 0;
     _encryptedTallies := []; _clearTallies := []; _options := [];
     hasVoted := ∅; events := [] |}.

Definition set_options (p : Poll) (os : list Option) (ts : list FHE.euint32) (cs : list Z) : Poll :=
  {| pollName := pollName p; pollHeadline := pollHeadline p;
     pollDescription := pollDescription p;
     startTime := startTime p; endTime := endTime p; creator := creator p;
     voterCount := voterCount p; finalized := finalized p;
     decryptionPending := decryptionPending p;
     decryptionRequestId := decryptionRequestId p;
     _encryptedTallies := ts; _clearTallies := cs; _options := os;
     hasVoted := hasVoted p; events := events p |}.

(** One pass of the constructor's loop body, at index [i]. *)
Definition constructor_body (optionLabels optionDescriptions : list string)
    (p : Poll) (i : nat) : Poll :=
  match optionLabels !! i, optionDescriptions !! i with
  | Some l, Some d =>
      set_options p
        (_options p ++ [mk_Option l d])
        (_encryptedTallies p ++ [FHE.allow (FHE.asEuint32 (uint32 0)) (creator p)])
        (_clearTallies p ++ [0])
  | _, _ => p
  end.

Definition constructor (e : Env) (name headline desc : string)
    (optionLabels optionDescriptions : list string)
    (votingDurationSeconds : Z) : result Poll :=
  if bool_decide (length optionLabels < 2)%nat then Revert InsufficientOptions
  else if bool_decide (length optionDescriptions ≠ length optionLabels)
  then Revert MismatchedOptionMetadata
  else if votingDurationSeconds =? 0 then Revert InvalidVotingDuration
  else if MAX_UINT256 <=? block_timestamp e + votingDurationSeconds then Revert Panic
  else Ok (foldl (constructor_body optionLabels optionDescriptions)
             (empty_poll e name headline desc votingDurationSeconds)
             (seq 0 (length optionLabels))).

(** ** Read-only accessors *)

Definition optionCount (p : Poll) : Z := Z.of_nat (length (_options p)).

Definition getOption (index : Z) (p : Poll) : result Option :=
  if bool_decide (length (_options p) = 0%nat)
     || (Z.of_nat (length (_options p)) - 1 <? index)
  then Revert (InvalidOptionIndex index)
  else match _options p !! Z.to_nat index with
       | Some o => Ok o
       | None => Revert Panic
       end.

Definition getEncryptedTally (index : Z) (p : Poll) : result FHE.euint32 :=
  if bool_decide (length (_encryptedTallies p) = 0%nat)
     || (Z.of_nat (length (_encryptedTallies p)) - 1 <? index)
  then Revert (InvalidOptionIndex index)
  else match _encryptedTallies p !! Z.to_nat index with
       | Some t => Ok t
       | None => Revert Panic
       end.

Definition getClearTally (index : Z) (p : Poll) : result Z :=
  if negb (finalized p) then Revert TallyNotFinalized
  else if bool_decide (length (_clearTallies p) = 0%nat)
          || (Z.of_nat (length (_clearTallies p)) - 1 <? index)
  then Revert (InvalidOptionIndex index)
  else match _clearTallies p !! Z.to_nat index with
       | Some c => Ok c
       | None => Revert Panic
       end.

Definition isVotingOpen (e : Env) (p : Poll) : bool :=
  let afterStart := (startTime p <? block_timestamp e) || (block_timestamp e =? startTime p) in
  let beforeEnd := block_timestamp e <? endTime p in
  let onEnd := block_timestamp e =? endTime p in
  afterStart && (beforeEnd || onEnd) && negb (finalized p).

(** ** State-changing entry points *)

Section Contract.
Context `{External}.

Definition set_tallies (p : Poll) (ts : list FHE.euint32) : Poll :=
  set_options p (_options p) ts (_clearTallies p).

Definition record_vote (p : Poll) (voter : address) : Poll :=
  {| pollName := pollName p; pollHeadline := pollHeadline p;
     pollDescription := pollDescription p;
     startTime := startTime p; endTime := endTime p; creator := creator p;
     voterCount := voterCount p + 1; finalized := finalized p;
     decryptionPending := decryptionPending p;
     decryptionRequestId := decryptionRequestId p;
     _encryptedTallies := _encryptedTallies p;
     _clearTallies := _clearTallies p; _options := _options p;
     hasVoted := <[voter := true]> (hasVoted p);
     events := events p ++ [VoteSubmitted voter] |}.

Definition record_request (p : Poll) (requestId : Z) : Poll :=
  {| pollName := pollName p; pollHeadline := pollHeadline p;
     pollDescription := pollDescription p;
     startTime := startTime p; endTime := endTime p; creator := creator p;
     voterCount := voterCount p; finalized := finalized p;
     decryptionPending := true;
     decryptionRequestId := requestId;
     _encryptedTallies := _encryptedTallies p;
     _clearTallies := _clearTallies p; _options := _options p;
     hasVoted := hasVoted p;
     events := events p ++ [TallyDecryptionRequested requestId] |}.

Definition record_final (p : Poll) (cs tallies : list Z) : Poll :=
  {| pollName := pollName p; pollHeadline := pollHeadline p;
     pollDescription := pollDescription p;
     startTime := startTime p; endTime := endTime p; creator := creator p;
     voterCount := voterCount p; finalized := true;
     decryptionPending := false;
     decryptionRequestId := decryptionRequestId p;
     _encryptedTallies := _encryptedTallies p;
     _clearTallies := cs; _options := _options p;
     hasVoted := hasVoted p;
     events := events p ++ [TallyFinalized tallies] |}.

(** The increment the loop adds to counter [i] for a given [choice]. *)
Definition increment_for (choice : FHE.euint32) (i : nat) : FHE.euint32 :=
  let isMatch := FHE.eq choice (FHE.asEuint32 (uint32 (Z.of_nat i))) in
  FHE.select isMatch (FHE.asEuint32 (uint32 1)) (FHE.asEuint32 (uint32 0)).

Definition updated_tally (e : Env) (p : Poll) (choice t : FHE.euint32) (i : nat)
    : FHE.euint32 :=
  FHE.allow
    (FHE.allow (FHE.allow (FHE.add t (increment_for choice i)) this) (msg_sender e))
    (creator p).

Definition vote_body (e : Env) (p : Poll) (choice : FHE.euint32)
    (ts : list FHE.euint32) (i : nat) : list FHE.euint32 :=
  match ts !! i with
  | Some t => <[i := updated_tally e p choice t i]> ts
  | None => ts
  end.

Definition submitEncryptedVote (e : Env) (encryptedOption : externalEuint32)
    (inputProof : bytes) (p : Poll) : result Poll :=
  if (block_timestamp e <? startTime p) || (endTime p <? block_timestamp e)
  then Revert VotingClosed
  else if hasVoted_at p (msg_sender e) then Revert AlreadyVoted
  else match fromExternal encryptedOption inputProof (msg_sender e) with
       | None => Revert InvalidProof
       | Some v =>
           let choice := FHE.mk_euint32 v ∅ in
           let ts := foldl (vote_body e p choice) (_encryptedTallies p)
                       (seq 0 (length (_encryptedTallies p))) in
           if MAX_UINT256 <=? voterCount p + 1 then Revert Panic
           else Ok (record_vote (set_tallies p ts) (msg_sender e))
       end.

Definition requestEncryptedTallyDecryption (e : Env) (p : Poll) : result (Poll * Z) :=
  if (block_timestamp e =? endTime p) || (block_timestamp e <? endTime p)
  then Revert VotingStillOpen
  else if finalized p then Revert AlreadyFinalized
  else if decryptionPending p then Revert DecryptionAlreadyPending
  else
    (* The handles of all tallies are serialised and handed to the oracle,
       which answers with the id of the request. *)
    let requestId := oracle_request_id e in
    Ok (record_request p requestId, requestId).

Definition callback_body (tallies : list Z) (cs : list Z) (i : nat) : list Z :=
  match tallies !! i with
  | Some t => <[i := t]> cs
  | None => cs
  end.

Definition decryptionCallback (e : Env) (requestId : Z)
    (cleartexts signatures : bytes) (p : Poll) : result (Poll * bool) :=
  if negb (decryptionPending p) || negb (requestId =? decryptionRequestId p)
  then Revert UnexpectedCallback
  else if negb (checkSignatures requestId cleartexts signatures)
  then Revert InvalidSignature
  else match abi_decode cleartexts with
       | None => Revert DecodeFailure
       | Some tallies =>
           if bool_decide (length tallies ≠ length (_clearTallies p))
           then Revert InvalidTallyLength
           else
             let cs := foldl (callback_body tallies) (_clearTallies p)
                         (seq 0 (length tallies)) in
             Ok (record_final p cs tallies, true)
       end.

(** ** Transactions and the chain *)

Inductive Tx :=
| SubmitEncryptedVote (encryptedOption : externalEuint32) (inputProof : bytes)
| RequestEncryptedTallyDecryption
| DecryptionCallback (requestId : Z) (cleartexts signatures : bytes).

Definition exec (e : Env) (tx : Tx) (p : Poll) : result Poll :=
  match tx with
  | SubmitEncryptedVote enc prf => submitEncryptedVote e enc prf p
  | RequestEncryptedTallyDecryption =>
      match requestEncryptedTallyDecryption e p with
      | Ok (p', _) => Ok p'
      | Revert err => Revert err
      end
  | DecryptionCallback rid clear sigs =>
      match decryptionCallback e rid clear sigs p with
      | Ok (p', _) => Ok p'
      | Revert err => Revert err
      end
  end.

(** A reverted transaction leaves the storage it found. *)
Definition step (e : Env) (tx : Tx) (p : Poll) : Poll :=
  match exec e tx p with
  | Ok p' => p'
  | Revert _ => p
  end.

Definition steps (txs : list (Env * Tx)) (p : Poll) : Poll :=
  foldl (λ q et, step et.1 et.2 q) p txs.

Definition valid_env (e : Env) : Prop :=
  0 ≤ block_timestamp e < MAX_UINT256 ∧ 0 ≤ msg_sender e < MAX_ADDRESS.

(** [reachable t p]: storage [p] after deployment and any number of
    transactions, the latest of them in a block stamped [t].  Block
    timestamps never decrease. *)
Inductive reachable : Z → Poll → Prop :=
| reachable_deploy e name headline desc labels descs duration p :
    valid_env e → 0 ≤ duration < MAX_UINT256 →
    constructor e name headline desc labels descs duration = Ok p →
    reachable (block_timestamp e) p
| reachable_step t p e tx :
    reachable t p → valid_env e → t ≤ block_timestamp e →
    reachable (block_timestamp e) (step e tx p).

End Contract.

(** ** Derived notions used to state the properties *)

(** The tally the constructor pushes for each option. *)
Definition fresh_tally (who : address) : FHE.euint32 :=
  FHE.allow (FHE.asEuint32 (uint32 0)) who.

(** The storage invariant, at a block stamped [t]: the window is well
    formed and has started, the three per-option arrays have one slot per
    option, every tally is a 32-bit value, [voterCount] counts the entries
    of [hasVoted] (all of them [true], keyed by 160-bit addresses), and a
    pending or finalized poll is past its window. *)
Record Inv (t : Z) (p : Poll) : Prop := {
  inv_start : 0 ≤ startTime p ≤ t;
  inv_window : startTime p < endTime p < MAX_UINT256;
  inv_len_enc : length (_encryptedTallies p) = length (_options p);
  inv_len_clear : length (_clearTallies p) = length (_options p);
  inv_opts : (2 ≤ length (_options p))%nat;
  inv_plain : Forall (λ c, 0 ≤ FHE.plain c < MAX_UINT32) (_encryptedTallies p);
  inv_voted : ∀ a b, hasVoted p !! a = Some b → b = true ∧ 0 ≤ a < MAX_ADDRESS;
  inv_count : voterCount p = Z.of_nat (size (hasVoted p));
  inv_pending : decryptionPending p = true → finalized p = false ∧ endTime p < t;
  inv_final : finalized p = true → decryptionPending p = false ∧ endTime p < t;
}.

(** The encrypted tallies after the vote loop has run for a ballot whose
    index decrypts to [v]. *)
Definition voted_tallies `{External} (e : Env) (p : Poll) (v : Z) : list FHE.euint32 :=
  imap (λ i t, updated_tally e p (FHE.mk_euint32 v ∅) t i) (_encryptedTallies p).

(** What the encrypted tallies decrypt to. *)
Definition plains (p : Poll) : list Z := FHE.plain <$> _encryptedTallies p.

Definition sumZ (l : list Z) : Z := foldr Z.add 0 l.

(** [new] is [old] with exactly one entry raised by one. *)
Definition one_incremented (old new : list Z) : Prop :=
  ∃ i x, old !! i = Some x ∧ new = <[i := x + 1]> old.

(** The part of the storage invariant that the tally arithmetic needs. *)
Definition tallies_wf (p : Poll) : Prop :=
  length (_encryptedTallies p) = length (_options p) ∧
  Forall (λ c, 0 ≤ FHE.plain c < MAX_UINT32) (_encryptedTallies p).

(** The first guard of [submitEncryptedVote] lets the call through. *)
Definition in_window (e : Env) (p : Poll) : bool :=
  negb ((block_timestamp e <? startTime p) || (endTime p <? block_timestamp e)).

(** Finalized, with no request outstanding. *)
Definition settled (p : Poll) : Prop :=
  finalized p = true ∧ decryptionPending p = false.

(** One call of [submitEncryptedVote]: its environment and arguments. *)
Record Ballot := mk_Ballot {
  ballot_env : Env;
  ballot_option : externalEuint32;
  ballot_proof : bytes;
}.

Definition cast_votes `{External} (bs : list Ballot) (p : Poll) : result Poll :=
  foldl (λ r b, match r with
                | Ok q => submitEncryptedVote (ballot_env b) (ballot_option b) (ballot_proof b) q
                | Revert err => Revert err
                end) (Ok p) bs.

Definition ballot_choice `{External} (b : Ballot) : option Z :=
  fromExternal (ballot_option b) (ballot_proof b) (msg_sender (ballot_env b)).

(** [getClearTally i] for every option index [i], in order. *)
Definition read_clear_tallies (p : Poll) : list (result Z) :=
  (λ i, getClearTally (Z.of_nat i) p) <$> seq 0 (length (_options p)).

(** [poll_run ... p3]: a poll is deployed, every ballot of [ballots] is
    accepted in turn, each for an option of the poll, decryption is
    requested, and the oracle's callback, carrying the decryption of the
    tallies that were requested, is accepted and leaves storage [p3]. *)
Definition poll_run `{External} (e0 : Env) (name headline desc : string)
    (labels descs : list string) (duration : Z) (ballots : list Ballot)
    (e1 e2 : Env) (clear sigs : bytes) (p3 : Poll) : Prop :=
  ∃ p0 p1 p2 rid b,
    constructor e0 name headline desc labels descs duration = Ok p0 ∧
    cast_votes ballots p0 = Ok p1 ∧
    Forall (λ bl, ∃ v, ballot_choice bl = Some v ∧ v < Z.of_nat (length labels)) ballots ∧
    requestEncryptedTallyDecryption e1 p1 = Ok (p2, rid) ∧
    abi_decode clear = Some (plains p2) ∧
    decryptionCallback e2 rid clear sigs p2 = Ok (p3, b).

(** The clear tallies add up to [k] and so does the voter count. *)
Definition conserved (k : Z) (p : Poll) : Prop :=
  voterCount p = k ∧ ∃ cs, read_clear_tallies p = Ok <$> cs ∧ sumZ cs = k.

(** What casting ballots leaves alone. *)
Definition same_frame (p q : Poll) : Prop :=
  startTime q = startTime p ∧ endTime q = endTime p ∧
  finalized q = finalized p ∧ decryptionPending q = decryptionPending p ∧
  _clearTallies q = _clearTallies p ∧ _options q = _options p.

(** The loop of the [poll:info] task: [getOption i] and
    [getEncryptedTally i] for every option index [i], in order. *)
Definition read_options (p : Poll) : list (result Option) :=
  (λ i, getOption (Z.of_nat i) p) <$> seq 0 (Z.to_nat (optionCount p)).

Definition read_encrypted_tallies (p : Poll) : list (result FHE.euint32) :=
  (λ i, getEncryptedTally (Z.of_nat i) p) <$> seq 0 (Z.to_nat (optionCount p)).

(** The voters named by the [VoteSubmitted] events of a log, oldest first. *)
Definition logged_voters (evs : list Event) : list address :=
  omap (λ ev, match ev with VoteSubmitted a => Some a | _ => None end) evs.

(** *** The [poll:vote] task

    The command-line task parses its [--option] argument, refuses what is
    not a non-negative integer, reads [optionCount] from the contract and
    refuses an index at or beyond it; only then does it encrypt the index
    for the signer and send [submitEncryptedVote].  [parsed] is what
    [parseInt] made of the argument ([None] when it is not a number), and
    [encrypt] stands for the client-side encryption of a 32-bit value for a
    contract and a user. *)

Inductive TaskOutcome :=
| NotAnIndex
| OutOfBounds (available : Z)
| Sent (r : result Poll).

Definition poll_vote `{External}
    (encrypt : address → address → Z → externalEuint32 * bytes)
    (parsed : option Z) (e : Env) (p : Poll) : TaskOutcome :=
  match parsed with
  | None => NotAnIndex
  | Some optionIndex =>
      if optionIndex <? 0 then NotAnIndex
      else if optionCount p <=? optionIndex then OutOfBounds (optionCount p)
      else
        let encryptedVote := encrypt this (msg_sender e) optionIndex in
        Sent (submitEncryptedVote e encryptedVote.1 encryptedVote.2 p)
  end.

(** *** The front end's refresh loop

    For every index below [optionCount] the page reads the option and its
    tally handle and, when the poll reported [finalized], the clear tally
    as well; any revert sends it to its error branch. *)

Record OptionState := mk_OptionState {
  os_index : Z;
  os_label : string;
  os_description : string;
  os_encryptedTally : FHE.euint32;
}.

Definition refresh_body (p : Poll)
    (acc : result (list OptionState * gmap Z Z)) (index : nat)
    : result (list OptionState * gmap Z Z) :=
  match acc with
  | Revert err => Revert err
  | Ok (optionEntries, clearResults) =>
      match getOption (Z.of_nat index) p with
      | Revert err => Revert err
      | Ok optionData =>
          match getEncryptedTally (Z.of_nat index) p with
          | Revert err => Revert err
          | Ok handle =>
              let entries :=
                optionEntries ++ [mk_OptionState (Z.of_nat index) (label optionData)
                                    (description optionData) handle] in
              if finalized p then
                match getClearTally (Z.of_nat index) p with
                | Revert err => Revert err
                | Ok clearValue => Ok (entries, <[Z.of_nat index := clearValue]> clearResults)
                end
              else Ok (entries, clearResults)
          end
      end
  end.

Definition refresh (p : Poll) : result (list OptionState * gmap Z Z) :=
  foldl (refresh_body p) (Ok ([], ∅)) (seq 0 (Z.to_nat (optionCount p))).

(** The entries the refresh loop is meant to collect. *)
Definition option_states (p : Poll) : list OptionState :=
  imap (λ i oc, mk_OptionState (Z.of_nat i) (label oc.1) (description oc.1) oc.2)
    (zip (_options p) (_encryptedTallies p)).

(** The request ids and the finalized tallies announced in a log. *)
Definition logged_requests (evs : list Event) : list Z :=
  omap (λ ev, match ev with TallyDecryptionRequested rid => Some rid | _ => None end) evs.

Definition logged_finalizations (evs : list Event) : list (list Z) :=
  omap (λ ev, match ev with TallyFinalized l => Some l | _ => None end) evs.

(** ** A concrete deployment

    A mock of the outside world in the manner of the repository's test
    environment: a handle is its own plaintext, a signature bundle is
    accepted when it is not empty, and a payload carries one tally per
    byte.  The poll is the two-option poll of the specification's
    scenarios, deployed at time 1000 for 3600 seconds. *)

Module Demo.

Definition mock_fromExternal (h : externalEuint32) (prf : bytes) (who : address)
    : option Z :=
  if (0 <=? h) && (h <? MAX_UINT32) then Some h else None.

Definition mock_checkSignatures (rid : Z) (clear sigs : bytes) : bool :=
  negb (bool_decide (sigs = [])).

Definition mock_decode (b : bytes) : option (list Z) :=
  Some (map (λ x, Z.of_N (Byte.to_N x)) b).

Lemma mock_fromExternal_range h prf who v :
  mock_fromExternal h prf who = Some v → 0 ≤ v < MAX_UINT32.
Proof.
  unfold mock_fromExternal.
  destruct (0 <=? h) eqn:H0; [|done]. destruct (h <? MAX_UINT32) eqn:H1; [|done].
  intros [= <-]. apply Z.leb_le in H0. apply Z.ltb_lt in H1. done.
Qed.

Lemma mock_decode_range b l :
  mock_decode b = Some l → Forall (λ x, 0 ≤ x < MAX_UINT32) l.
Proof.
  intros [= <-]. apply Forall_forall. intros x Hx.
  apply list_elem_of_In, in_map_iff in Hx as (y & <- & _).
  by destruct y.
Qed.

#[global] Instance mock : External := {|
  this := 4096;
  fromExternal := mock_fromExternal;
  checkSignatures := mock_checkSignatures;
  abi_decode := mock_decode;
  fromExternal_range := mock_fromExternal_range;
  abi_decode_range := mock_decode_range;
|}.

Definition deployer : address := 1.
Definition alice : address := 2.
Definition bob : address := 3.
Definition carol : address := 4.

Definition at_time (t : Z) (who : address) : Env := mk_Env t who 7.

Local Open Scope string_scope.

Definition poll0 : Poll :=
  set_options (empty_poll (at_time 1000 deployer) "P" "H" "D" 3600)
    [mk_Option "X" "x"; mk_Option "Y" "y"]
    [fresh_tally deployer; fresh_tally deployer] [0; 0].

End Demo.

Definition poll_after_alice : Poll :=
  step (Demo.at_time 1001 Demo.alice) (SubmitEncryptedVote 0 []) Demo.poll0.

Definition poll_pending : Poll :=
  step (Demo.at_time 5000 Demo.bob) RequestEncryptedTallyDecryption poll_after_alice.

Definition payload_1_0 : bytes := [Byte.x01; Byte.x00].
Definition some_signature : bytes := [Byte.xff].

Definition poll_final : Poll :=
  step (Demo.at_time 5001 Demo.carol)
    (DecryptionCallback 7 payload_1_0 some_signature) poll_pending.

Definition scenario_A_ballots : list Ballot :=
  [mk_Ballot (Demo.at_time 1001 Demo.alice) 0 [];
   mk_Ballot (Demo.at_time 1002 Demo.bob) 1 [];
   mk_Ballot (Demo.at_time 1003 Demo.carol) 1 []].

Definition scenario_A_final : Poll :=
  steps [(Demo.at_time 1001 Demo.alice, SubmitEncryptedVote 0 []);
         (Demo.at_time 1002 Demo.bob, SubmitEncryptedVote 1 []);
         (Demo.at_time 1003 Demo.carol, SubmitEncryptedVote 1 []);
         (Demo.at_time 5000 Demo.deployer, RequestEncryptedTallyDecryption);
         (Demo.at_time 5001 Demo.deployer,
          DecryptionCallback 7 [Byte.x01; Byte.x02] some_signature)]
    Demo.poll0.

(** One identity per 32-bit number, each voting for option 0 at time 1001. *)
Definition electorate : list address := seqZ 0 MAX_UINT32.

Definition electorate_ballots : list Ballot :=
  (λ a, mk_Ballot (mk_Env 1001 a 7) 0 []) <$> electorate.

(** ** Facts about the concrete deployment *)

Lemma deploy_poll0 :
  constructor (Demo.at_time 1000 Demo.deployer) "P" "H" "D" ["X"; "Y"]%string ["x"; "y"]%string 3600 = Ok Demo.poll0.
Proof. reflexivity. Qed.

Lemma valid_at_time t who :
  0 ≤ t < MAX_UINT256 → 0 ≤ who < MAX_ADDRESS → valid_env (Demo.at_time t who).
Proof. intros Ht Hw. split; assumption. Qed.

Lemma reachable_poll0 : reachable 1000 Demo.poll0.
Proof.
  apply (reachable_deploy (Demo.at_time 1000 Demo.deployer) "P" "H" "D" ["X"; "Y"]%string ["x"; "y"]%string 3600).
  - apply valid_at_time; done.
  - done.
  - exact deploy_poll0.
Qed.

(** ** Arithmetic of the machine bounds *)

Lemma MAX_UINT32_pos : 0 < MAX_UINT32.
Proof. reflexivity. Qed.

Lemma MAX_ADDRESS_lt_UINT256 : MAX_ADDRESS + 1 < MAX_UINT256.
Proof. reflexivity. Qed.

Lemma uint32_small i : 0 ≤ i < MAX_UINT32 → uint32 i = i.
Proof. intros Hi. unfold uint32. apply Z.mod_small. exact Hi. Qed.

Lemma uint32_range i : 0 ≤ uint32 i < MAX_UINT32.
Proof. unfold uint32. apply Z.mod_pos_bound, MAX_UINT32_pos. Qed.

Lemma uint32_le i : 0 ≤ i → uint32 i ≤ i.
Proof. intros Hi. unfold uint32. apply Z.mod_le; [exact Hi | apply MAX_UINT32_pos]. Qed.

(** ** The three loops in closed form *)

Section Loops.
Context `{External}.

Lemma foldl_index_update {A} (f : nat → A → A) (l : list A) (k : nat) :
  let body := λ (acc : list A) (i : nat),
    match acc !! i with Some x => <[i := f i x]> acc | None => acc end in
  length (foldl body l (seq 0 k)) = length l ∧
  ∀ j, foldl body l (seq 0 k) !! j
       = if decide (j < k)%nat then f j <$> l !! j else l !! j.
Proof.
  intros body. induction k as [|k [IHlen IH]].
  - split; [done|]. intros j. by rewrite decide_False by lia.
  - rewrite seq_S, foldl_app. simpl. unfold body at 1 3.
    rewrite IH, decide_False by lia.
    destruct (l !! k) as [x|] eqn:Hk.
    + split; [by rewrite length_insert|]. intros j.
      destruct (decide (j = k)) as [->|Hne].
      * rewrite list_lookup_insert_eq by (rewrite IHlen; by eapply lookup_lt_Some).
        rewrite decide_True by lia. by rewrite Hk.
      * rewrite list_lookup_insert_ne by done. rewrite IH.
        destruct (decide (j < k)%nat), (decide (j < S k)%nat); try done; lia.
    + split; [done|]. intros j. rewrite IH.
      destruct (decide (j < k)%nat), (decide (j < S k)%nat); try done; try lia.
      assert (j = k) as -> by lia. by rewrite Hk.
Qed.

Lemma vote_loop_imap e p choice (ts : list FHE.euint32) :
  foldl (vote_body e p choice) ts (seq 0 (length ts))
  = imap (λ i t, updated_tally e p choice t i) ts.
Proof.
  destruct (foldl_index_update (λ i t, updated_tally e p choice t i) ts (length ts))
    as [Hlen Hlook].
  apply list_eq. intros j. unfold vote_body. rewrite Hlook, list_lookup_imap.
  destruct (decide (j < length ts)%nat) as [|Hge]; [done|].
  rewrite lookup_ge_None_2 by lia. done.
Qed.

Lemma callback_loop_copy (tallies cs : list Z) :
  length tallies = length cs →
  foldl (callback_body tallies) cs (seq 0 (length tallies)) = tallies.
Proof.
  intros Hlen.
  assert (∀ k, (k ≤ length tallies)%nat →
            foldl (callback_body tallies) cs (seq 0 k)
            = take k tallies ++ drop k cs) as Hk.
  { induction k as [|k IH]; intros Hle; [done|].
    rewrite seq_S, foldl_app, IH by lia. simpl. unfold callback_body.
    destruct (lookup_lt_is_Some_2 tallies k) as [x Hx]; [lia|].
    rewrite Hx. rewrite (take_S_r _ _ _ Hx).
    rewrite insert_app_r_alt by (rewrite length_take; lia).
    rewrite length_take, Nat.min_l, Nat.sub_diag by lia.
    destruct (lookup_lt_is_Some_2 cs k) as [y Hy]; [lia|].
    rewrite (drop_S _ _ _ Hy). simpl. by rewrite <- app_assoc. }
  rewrite Hk by lia. rewrite firstn_all, drop_ge by lia. apply app_nil_r.
Qed.

Lemma plain_updated_tally e p v t i :
  FHE.plain (updated_tally e p (FHE.mk_euint32 v ∅) t i)
  = (FHE.plain t + (if v =? uint32 (Z.of_nat i) then 1 else 0)) mod MAX_UINT32.
Proof.
  unfold updated_tally, increment_for, FHE.allow, FHE.add, FHE.select, FHE.eq.
  simpl. by destruct (v =? uint32 (Z.of_nat i)).
Qed.

End Loops.

(** ** What a successful deployment stores *)

Lemma constructor_loop labels descs p0 k :
  (k ≤ length labels)%nat → length descs = length labels →
  foldl (constructor_body labels descs) p0 (seq 0 k)
  = set_options p0
      (_options p0 ++ take k (zip_with mk_Option labels descs))
      (_encryptedTallies p0 ++ replicate k (fresh_tally (creator p0)))
      (_clearTallies p0 ++ replicate k 0).
Proof.
  intros Hk Hlen. induction k as [|k IH].
  - simpl. rewrite take_0, !app_nil_r. by destruct p0.
  - rewrite seq_S, foldl_app, IH by lia. simpl. unfold constructor_body.
    destruct (lookup_lt_is_Some_2 labels k) as [l Hl]; [lia|].
    destruct (lookup_lt_is_Some_2 descs k) as [d Hd]; [lia|].
    rewrite Hl, Hd. unfold set_options; simpl.
    assert (zip_with mk_Option labels descs !! k = Some (mk_Option l d)) as Hz.
    { rewrite lookup_zip_with, Hl. simpl. by rewrite Hd. }
    rewrite (take_S_r _ _ _ Hz), !replicate_cons_app, <- !app_assoc. done.
Qed.

Lemma constructor_Ok e name headline desc labels descs duration p :
  constructor e name headline desc labels descs duration = Ok p →
  (2 ≤ length labels)%nat ∧ length descs = length labels ∧ duration ≠ 0 ∧
  block_timestamp e + duration < MAX_UINT256 ∧
  p = set_options (empty_poll e name headline desc duration)
        (zip_with mk_Option labels descs)
        (replicate (length labels) (fresh_tally (msg_sender e)))
        (replicate (length labels) 0).
Proof.
  unfold constructor. repeat case_bool_decide; try done.
  destruct (duration =? 0) eqn:Hd; [done|].
  destruct (MAX_UINT256 <=? block_timestamp e + duration) eqn:Ho; [done|].
  intros [= <-]. apply Z.eqb_neq in Hd. apply Z.leb_gt in Ho.
  repeat split; try done; try lia.
  rewrite constructor_loop by lia. simpl.
  rewrite firstn_all2; [done|]. rewrite length_zip_with. lia.
Qed.

(** ** The storage invariant *)

(** A finite map whose keys all lie in [[0, m)] has at most [m] entries. *)
Lemma map_size_bounded_keys {A} (m : Z) :
  0 ≤ m → ∀ M : gmap Z A,
  (∀ k, is_Some (M !! k) → 0 ≤ k < m) → Z.of_nat (size M) ≤ m.
Proof.
  intros Hm. pattern m. apply natlike_ind; [| |exact Hm]; clear m Hm.
  - intros M HM. destruct (decide (M = ∅)) as [->|Hne]; [by rewrite map_size_empty|].
    apply map_choose in Hne as (k & x & Hk). specialize (HM k (mk_is_Some _ _ Hk)). lia.
  - intros m Hm IH M HM.
    assert (Z.of_nat (size (delete m M)) ≤ m) as Hdel.
    { apply IH. intros k [x Hx]. apply lookup_delete_Some in Hx as [Hne Hx].
      specialize (HM k (mk_is_Some _ _ Hx)). lia. }
    destruct (M !! m) as [x|] eqn:Hx.
    + rewrite <- (insert_delete_id M m x Hx).
      rewrite map_size_insert_None by apply lookup_delete_eq. lia.
    + rewrite delete_id in Hdel by done. lia.
Qed.

Lemma Inv_voterCount t p : Inv t p → 0 ≤ voterCount p ≤ MAX_ADDRESS.
Proof.
  intros HI. rewrite (inv_count _ _ HI). split; [lia|].
  apply map_size_bounded_keys; [done|].
  intros k [b Hb]. by apply (inv_voted _ _ HI) in Hb as [_ ?].
Qed.

(** ** Inversion of the successful paths *)

Section Paths.
Context `{External}.

Lemma submitEncryptedVote_Ok e enc prf p p' :
  submitEncryptedVote e enc prf p = Ok p' →
  startTime p ≤ block_timestamp e ≤ endTime p ∧
  hasVoted_at p (msg_sender e) = false ∧
  voterCount p + 1 < MAX_UINT256 ∧
  ∃ v, fromExternal enc prf (msg_sender e) = Some v ∧
       p' = record_vote (set_tallies p (voted_tallies e p v)) (msg_sender e).
Proof.
  unfold submitEncryptedVote.
  destruct (block_timestamp e <? startTime p) eqn:H1; [done|].
  destruct (endTime p <? block_timestamp e) eqn:H2; [done|]. simpl.
  destruct (hasVoted_at p (msg_sender e)) eqn:H3; [done|].
  destruct (fromExternal enc prf (msg_sender e)) as [v|] eqn:H4; [|done].
  destruct (MAX_UINT256 <=? voterCount p + 1) eqn:H5; [done|].
  intros [= <-]. rewrite vote_loop_imap.
  apply Z.ltb_ge in H1, H2. apply Z.leb_gt in H5.
  repeat split; try lia. by exists v.
Qed.

Lemma submitEncryptedVote_succeeds e enc prf p v :
  startTime p ≤ block_timestamp e ≤ endTime p →
  hasVoted_at p (msg_sender e) = false →
  fromExternal enc prf (msg_sender e) = Some v →
  voterCount p + 1 < MAX_UINT256 →
  submitEncryptedVote e enc prf p
  = Ok (record_vote (set_tallies p (voted_tallies e p v)) (msg_sender e)).
Proof.
  intros Hw Hv Hf Hc. unfold submitEncryptedVote.
  rewrite (proj2 (Z.ltb_ge _ _)), (proj2 (Z.ltb_ge _ _)) by lia. simpl.
  rewrite Hv, Hf, (proj2 (Z.leb_gt _ _)) by lia.
  by rewrite vote_loop_imap.
Qed.

Lemma requestEncryptedTallyDecryption_Ok e p p' rid :
  requestEncryptedTallyDecryption e p = Ok (p', rid) →
  endTime p < block_timestamp e ∧ finalized p = false ∧
  decryptionPending p = false ∧
  rid = oracle_request_id e ∧ p' = record_request p rid.
Proof.
  unfold requestEncryptedTallyDecryption.
  destruct (block_timestamp e =? endTime p) eqn:H1; [done|].
  destruct (block_timestamp e <? endTime p) eqn:H2; [done|]. simpl.
  destruct (finalized p) eqn:H3; [done|].
  destruct (decryptionPending p) eqn:H4; [done|].
  intros [= <- <-]. apply Z.eqb_neq in H1. apply Z.ltb_ge in H2.
  repeat split; try done; lia.
Qed.

Lemma decryptionCallback_Ok e rid clear sigs p p' b :
  decryptionCallback e rid clear sigs p = Ok (p', b) →
  decryptionPending p = true ∧ rid = decryptionRequestId p ∧
  checkSignatures rid clear sigs = true ∧ b = true ∧
  ∃ tallies, abi_decode clear = Some tallies ∧
             length tallies = length (_clearTallies p) ∧
             p' = record_final p tallies tallies.
Proof.
  unfold decryptionCallback.
  destruct (decryptionPending p) eqn:H1; [|done].
  destruct (rid =? decryptionRequestId p) eqn:H2; [|done]. simpl.
  destruct (checkSignatures rid clear sigs) eqn:H3; [|done]. simpl.
  destruct (abi_decode clear) as [tallies|] eqn:H4; [|done].
  case_bool_decide as H5; [done|].
  intros [= <- <-]. apply Z.eqb_eq in H2.
  repeat split; try done. exists tallies.
  by rewrite callback_loop_copy.
Qed.

Lemma decryptionCallback_succeeds e rid clear sigs p tallies :
  decryptionPending p = true → rid = decryptionRequestId p →
  checkSignatures rid clear sigs = true →
  abi_decode clear = Some tallies →
  length tallies = length (_clearTallies p) →
  decryptionCallback e rid clear sigs p = Ok (record_final p tallies tallies, true).
Proof.
  intros H1 -> H3 H4 H5. unfold decryptionCallback.
  rewrite H1, Z.eqb_refl, H3, H4. simpl.
  rewrite bool_decide_eq_false_2 by (intros ?; done).
  by rewrite callback_loop_copy.
Qed.

(** ** The invariant holds in every reachable state *)

Lemma Inv_mono t t' p : t ≤ t' → Inv t p → Inv t' p.
Proof.
  intros Ht [H1 H2 H3 H4 H5 H6 H7 H8 H9 H10].
  split; try done; try lia.
  - intros Hp. destruct (H9 Hp). split; [done|lia].
  - intros Hf. destruct (H10 Hf). split; [done|lia].
Qed.

Lemma Inv_deploy e name headline desc labels descs duration p :
  valid_env e → 0 ≤ duration < MAX_UINT256 →
  constructor e name headline desc labels descs duration = Ok p →
  Inv (block_timestamp e) p.
Proof.
  intros [Ht Hs] Hd Hc.
  apply constructor_Ok in Hc as (Hn & Hlen & Hne & Hov & ->).
  split; simpl; try done; try lia.
  - by rewrite length_replicate, length_zip_with, Hlen, Nat.min_id.
  - by rewrite length_replicate, length_zip_with, Hlen, Nat.min_id.
  - rewrite length_zip_with. lia.
  - apply Forall_replicate. simpl. rewrite uint32_small; done.
Qed.

Lemma hasVoted_at_false_None t p a :
  Inv t p → hasVoted_at p a = false → hasVoted p !! a = None.
Proof.
  intros HI. unfold hasVoted_at.
  destruct (hasVoted p !! a) as [b|] eqn:Hb; [|done].
  apply (inv_voted _ _ HI) in Hb as [-> _]. done.
Qed.

Lemma Inv_vote t p e enc prf p' :
  Inv t p → valid_env e → t ≤ block_timestamp e →
  submitEncryptedVote e enc prf p = Ok p' → Inv (block_timestamp e) p'.
Proof.
  intros HI [Ht Hs] Hle Hok.
  apply submitEncryptedVote_Ok in Hok as (Hw & Hv & Hc & v & Hf & ->).
  pose proof (hasVoted_at_false_None _ _ _ HI Hv) as Hnone.
  destruct HI as [H1 H2 H3 H4 H5 H6 H7 H8 H9 H10].
  split; simpl; try done; try lia.
  - unfold voted_tallies. by rewrite length_imap.
  - apply Forall_forall. intros c Hc'.
    apply list_elem_of_lookup in Hc' as [i Hi]. unfold voted_tallies in Hi.
    rewrite list_lookup_imap in Hi.
    destruct (_encryptedTallies p !! i) as [c0|]; [|done].
    injection Hi as <-. rewrite plain_updated_tally.
    apply Z.mod_pos_bound, MAX_UINT32_pos.
  - intros a b. rewrite lookup_insert. case_decide.
    + intros [= <-]. by subst a.
    + apply H7.
  - rewrite map_size_insert_None by done. lia.
  - intros Hp. destruct (H9 Hp). split; [done|lia].
  - intros Hfin. destruct (H10 Hfin). split; [done|lia].
Qed.

Lemma Inv_request t p e p' rid :
  Inv t p → valid_env e → t ≤ block_timestamp e →
  requestEncryptedTallyDecryption e p = Ok (p', rid) → Inv (block_timestamp e) p'.
Proof.
  intros HI _ Hle Hok.
  apply requestEncryptedTallyDecryption_Ok in Hok as (Hend & Hfin & Hpen & -> & ->).
  destruct HI as [H1 H2 H3 H4 H5 H6 H7 H8 H9 H10].
  split; simpl; try done; try lia.
  rewrite Hfin. done.
Qed.

Lemma Inv_callback t p e rid clear sigs p' b :
  Inv t p → valid_env e → t ≤ block_timestamp e →
  decryptionCallback e rid clear sigs p = Ok (p', b) → Inv (block_timestamp e) p'.
Proof.
  intros HI _ Hle Hok.
  apply decryptionCallback_Ok in Hok as (Hpen & -> & Hsig & -> & l & Hdec & Hlen & ->).
  destruct HI as [H1 H2 H3 H4 H5 H6 H7 H8 H9 H10].
  split; simpl; try done; try lia.
  intros _. destruct (H9 Hpen). split; [done|lia].
Qed.

Lemma Inv_step t p e tx :
  Inv t p → valid_env e → t ≤ block_timestamp e → Inv (block_timestamp e) (step e tx p).
Proof.
  intros HI He Hle. unfold step, exec. destruct tx as [enc prf| |rid clear sigs].
  - destruct (submitEncryptedVote e enc prf p) as [p'|err] eqn:Hx.
    + by eapply (Inv_vote t).
    + by eapply (Inv_mono t).
  - destruct (requestEncryptedTallyDecryption e p) as [[p' r]|err] eqn:Hx.
    + by eapply (Inv_request t).
    + by eapply (Inv_mono t).
  - destruct (decryptionCallback e rid clear sigs p) as [[p' r]|err] eqn:Hx.
    + by eapply (Inv_callback t).
    + by eapply (Inv_mono t).
Qed.

Lemma reachable_Inv t p : reachable t p → Inv t p.
Proof.
  induction 1 as [e name headline desc labels descs duration p He Hd Hc
                 | t p e tx _ IH He Hle].
  - by eapply Inv_deploy.
  - by apply (Inv_step t).
Qed.

End Paths.

(** ** Plaintext view of the encrypted tallies *)

Section Tally.
Context `{External}.

Lemma plains_voted e p v who :
  plains (record_vote (set_tallies p (voted_tallies e p v)) who)
  = imap (λ i x, (x + (if v =? uint32 (Z.of_nat i) then 1 else 0)) mod MAX_UINT32)
      (plains p).
Proof.
  unfold plains, voted_tallies. simpl. apply list_eq. intros j.
  rewrite list_lookup_fmap, !list_lookup_imap, list_lookup_fmap.
  destruct (_encryptedTallies p !! j) as [c|]; [|done].
  exact (f_equal Some (plain_updated_tally e p v c j)).
Qed.

Lemma Inv_tallies_wf t p : Inv t p → tallies_wf p.
Proof. intros HI. split; [apply (inv_len_enc _ _ HI) | apply (inv_plain _ _ HI)]. Qed.

Lemma plains_range p i x :
  tallies_wf p → plains p !! i = Some x → 0 ≤ x < MAX_UINT32.
Proof.
  intros [_ HF]. unfold plains. rewrite list_lookup_fmap.
  destruct (_encryptedTallies p !! i) as [c|] eqn:Hc; [|done].
  intros [= <-]. rewrite Forall_forall in HF. apply HF.
  apply list_elem_of_lookup. eauto.
Qed.

Lemma length_plains p : tallies_wf p → Z.of_nat (length (plains p)) = optionCount p.
Proof.
  intros [Hlen _]. unfold plains, optionCount. by rewrite length_fmap, Hlen.
Qed.

Lemma tallies_wf_vote e p v who :
  tallies_wf p → tallies_wf (record_vote (set_tallies p (voted_tallies e p v)) who).
Proof.
  intros [Hlen HF]. split; simpl.
  - unfold voted_tallies. by rewrite length_imap.
  - apply Forall_forall. intros c Hc.
    apply list_elem_of_lookup in Hc as [i Hi]. unfold voted_tallies in Hi.
    rewrite list_lookup_imap in Hi.
    destruct (_encryptedTallies p !! i) as [c0|]; [|done].
    injection Hi as <-. rewrite plain_updated_tally.
    apply Z.mod_pos_bound, MAX_UINT32_pos.
Qed.

(** A ballot for an index below the option count raises that counter. *)
Lemma plains_voted_in_range e p v who x :
  tallies_wf p → optionCount p ≤ MAX_UINT32 →
  plains p !! Z.to_nat v = Some x → 0 ≤ v →
  plains (record_vote (set_tallies p (voted_tallies e p v)) who)
  = <[Z.to_nat v := (x + 1) mod MAX_UINT32]> (plains p).
Proof.
  intros HI HN Hx Hv. rewrite plains_voted. apply list_eq. intros j.
  rewrite list_lookup_imap.
  pose proof (lookup_lt_Some _ _ _ Hx) as Hlt.
  pose proof (length_plains _ HI) as Hlen.
  destruct (decide (j = Z.to_nat v)) as [->|Hne].
  - rewrite list_lookup_insert_eq by done. rewrite Hx. simpl.
    rewrite Z2Nat.id, uint32_small, Z.eqb_refl by lia. done.
  - rewrite list_lookup_insert_ne by done.
    destruct (plains p !! j) as [y|] eqn:Hy; [|done]. simpl.
    pose proof (lookup_lt_Some _ _ _ Hy) as Hj.
    rewrite uint32_small by lia.
    rewrite (proj2 (Z.eqb_neq _ _)) by lia.
    rewrite Z.add_0_r, Z.mod_small; [done|]. by eapply plains_range.
Qed.

(** A ballot for an index at or beyond the option count raises nothing. *)
Lemma plains_voted_out_of_range e p v who :
  tallies_wf p → optionCount p ≤ v →
  plains (record_vote (set_tallies p (voted_tallies e p v)) who) = plains p.
Proof.
  intros HI Hv. rewrite plains_voted. apply list_eq. intros j.
  rewrite list_lookup_imap.
  pose proof (length_plains _ HI) as Hlen.
  destruct (plains p !! j) as [y|] eqn:Hy; [|done]. simpl.
  pose proof (lookup_lt_Some _ _ _ Hy) as Hj.
  pose proof (uint32_le (Z.of_nat j)).
  rewrite (proj2 (Z.eqb_neq _ _)) by lia.
  rewrite Z.add_0_r, Z.mod_small; [done|]. by eapply plains_range.
Qed.

End Tally.

(** ** Claims *)

(** C1 (as amended): in every reachable state with at most 2^32 options, a
    successful [submitEncryptedVote] whose encrypted index decrypts to a
    value [v] below the option count raises exactly the counter at index
    [v] by one, modulo 2^32, and leaves the plaintext of every other
    counter as it was. *)
Theorem submitEncryptedVote_increments_chosen `{External} t p e enc prf p' v :
  reachable t p → optionCount p ≤ MAX_UINT32 →
  submitEncryptedVote e enc prf p = Ok p' →
  fromExternal enc prf (msg_sender e) = Some v →
  v < optionCount p →
  ∃ x, plains p !! Z.to_nat v = Some x ∧
       plains p' = <[Z.to_nat v := (x + 1) mod MAX_UINT32]> (plains p).
Proof.
  intros Hr HN Hok Hf Hv. apply reachable_Inv in Hr as HI.
  apply submitEncryptedVote_Ok in Hok as (_ & _ & _ & v' & Hf' & ->).
  assert (v' = v) as -> by congruence.
  pose proof (fromExternal_range _ _ _ _ Hf) as Hrange.
  destruct (lookup_lt_is_Some_2 (plains p) (Z.to_nat v)) as [x Hx].
  { pose proof (length_plains _ (Inv_tallies_wf _ _ HI)). lia. }
  exists x. split; [done|].
  apply plains_voted_in_range; try done; [by eapply Inv_tallies_wf | lia].
Qed.

Lemma submitEncryptedVote_increments_chosen_witness :
  ∃ x, plains Demo.poll0 !! Z.to_nat 1 = Some x ∧
       plains (step (Demo.at_time 1001 Demo.alice) (SubmitEncryptedVote 1 []) Demo.poll0)
       = <[Z.to_nat 1 := (x + 1) mod MAX_UINT32]> (plains Demo.poll0).
Proof.
  apply (submitEncryptedVote_increments_chosen 1000 Demo.poll0
           (Demo.at_time 1001 Demo.alice) 1 []).
  - exact reachable_poll0.
  - vm_compute. discriminate.
  - reflexivity.
  - reflexivity.
  - reflexivity.
Defined.

(** C1 as stated fails: a ballot whose index decrypts to 5 in a two-option
    poll is accepted and raises none of the counters. *)
Lemma submitEncryptedVote_may_increment_none :
  reachable 1000 Demo.poll0 ∧
  ∃ p', submitEncryptedVote (Demo.at_time 1001 Demo.alice) 5 [] Demo.poll0 = Ok p' ∧
        ¬ one_incremented (plains Demo.poll0) (plains p').
Proof.
  split; [exact reachable_poll0|].
  eexists. split; [reflexivity|].
  intros (i & x & Hx & Heq). vm_compute in Heq.
  destruct i as [|[|i]]; vm_compute in Hx; [| |done];
    injection Hx as <-; discriminate Heq.
Qed.

Lemma hasVoted_at_record_vote p who : hasVoted_at (record_vote p who) who = true.
Proof. unfold hasVoted_at. simpl. by rewrite lookup_insert_eq. Qed.

(** C3: the encrypted index is never range-checked.  In a reachable state,
    inside the voting window, a ballot from an identity that has not voted
    whose index decrypts to a value at or beyond the option count is
    accepted; it marks the sender as having voted and raises [voterCount]
    by one, yet the plaintext of every encrypted tally stays as it was, so
    the voter count moves strictly ahead of the sum of the tallies. *)
Theorem out_of_range_ballot_is_counted `{External} t p e enc prf v :
  reachable t p →
  startTime p ≤ block_timestamp e ≤ endTime p →
  hasVoted_at p (msg_sender e) = false →
  fromExternal enc prf (msg_sender e) = Some v →
  optionCount p ≤ v →
  ∃ p', submitEncryptedVote e enc prf p = Ok p' ∧
        hasVoted_at p' (msg_sender e) = true ∧
        voterCount p' = voterCount p + 1 ∧
        plains p' = plains p ∧
        (sumZ (plains p) ≤ voterCount p → sumZ (plains p') < voterCount p').
Proof.
  intros Hr Hw Hnv Hf Hv. apply reachable_Inv in Hr as HI.
  pose proof (Inv_voterCount _ _ HI) as Hc.
  pose proof MAX_ADDRESS_lt_UINT256 as Hm.
  eexists. split; [apply (submitEncryptedVote_succeeds _ _ _ _ v); try done; lia|].
  rewrite hasVoted_at_record_vote, plains_voted_out_of_range
    by (try done; by eapply Inv_tallies_wf).
  simpl. repeat split; try done. lia.
Qed.

Lemma out_of_range_ballot_is_counted_witness :
  ∃ p', submitEncryptedVote (Demo.at_time 1001 Demo.alice) 5 [] Demo.poll0 = Ok p' ∧
        hasVoted_at p' Demo.alice = true ∧
        voterCount p' = voterCount Demo.poll0 + 1 ∧
        plains p' = plains Demo.poll0 ∧
        (sumZ (plains Demo.poll0) ≤ voterCount Demo.poll0 →
         sumZ (plains p') < voterCount p').
Proof.
  apply (out_of_range_ballot_is_counted 1000 Demo.poll0
           (Demo.at_time 1001 Demo.alice) 5 [] 5).
  - exact reachable_poll0.
  - vm_compute. split; discriminate.
  - reflexivity.
  - reflexivity.
  - vm_compute. discriminate.
Defined.

(** ** One ballot per identity *)

(** C4 (as amended): a further [submitEncryptedVote] by an identity whose
    [hasVoted] flag is set always fails and changes nothing: with
    [AlreadyVoted] when the call falls inside the voting window (the flag is
    tested before the ciphertext is imported or any tally touched) and with
    [VotingClosed] when it falls outside.  Conversely a successful call
    finds the flag clear, sets it, and raises [voterCount] by exactly one. *)
Theorem double_vote_rejected `{External} e enc prf p :
  (hasVoted_at p (msg_sender e) = true →
     submitEncryptedVote e enc prf p
     = Revert (if in_window e p then AlreadyVoted else VotingClosed)
     ∧ step e (SubmitEncryptedVote enc prf) p = p)
  ∧ (∀ p', submitEncryptedVote e enc prf p = Ok p' →
       hasVoted_at p (msg_sender e) = false ∧
       hasVoted_at p' (msg_sender e) = true ∧
       voterCount p' = voterCount p + 1).
Proof.
  split.
  - intros Hv.
    assert (submitEncryptedVote e enc prf p
            = Revert (if in_window e p then AlreadyVoted else VotingClosed)) as Hr.
    { unfold submitEncryptedVote, in_window.
      destruct ((block_timestamp e <? startTime p) || (endTime p <? block_timestamp e));
        [done|]. simpl. by rewrite Hv. }
    split; [done|]. unfold step, exec. by rewrite Hr.
  - intros p' Hok.
    apply submitEncryptedVote_Ok in Hok as (_ & Hnv & _ & v & _ & ->).
    rewrite hasVoted_at_record_vote. done.
Qed.

Lemma reachable_poll_after_alice : reachable 1001 poll_after_alice.
Proof.
  apply (reachable_step 1000 Demo.poll0 (Demo.at_time 1001 Demo.alice)).
  - exact reachable_poll0.
  - apply valid_at_time; done.
  - done.
Qed.

Lemma double_vote_rejected_witness :
  (submitEncryptedVote (Demo.at_time 1002 Demo.alice) 0 [] poll_after_alice
   = Revert AlreadyVoted
   ∧ step (Demo.at_time 1002 Demo.alice) (SubmitEncryptedVote 0 []) poll_after_alice
     = poll_after_alice)
  ∧ (hasVoted_at Demo.poll0 Demo.alice = false ∧
     hasVoted_at poll_after_alice Demo.alice = true ∧
     voterCount poll_after_alice = voterCount Demo.poll0 + 1).
Proof.
  split.
  - apply (proj1 (double_vote_rejected (Demo.at_time 1002 Demo.alice) 0 [] poll_after_alice)).
    reflexivity.
  - apply (proj2 (double_vote_rejected (Demo.at_time 1001 Demo.alice) 0 [] Demo.poll0)).
    reflexivity.
Defined.

(** C4 as stated fails: once the window has closed, a repeated ballot by
    an identity that has voted is turned away with [VotingClosed], not
    [AlreadyVoted]. *)
Lemma double_vote_after_close_is_VotingClosed :
  reachable 1001 poll_after_alice ∧
  hasVoted_at poll_after_alice Demo.alice = true ∧
  submitEncryptedVote (Demo.at_time 5000 Demo.alice) 0 [] poll_after_alice
  = Revert VotingClosed ∧
  submitEncryptedVote (Demo.at_time 5000 Demo.alice) 0 [] poll_after_alice
  ≠ Revert AlreadyVoted.
Proof.
  split; [exact reachable_poll_after_alice|].
  split; [reflexivity|]. split; [reflexivity|]. discriminate.
Qed.

(** C6: before [startTime] and after [endTime] every [submitEncryptedVote]
    fails with [VotingClosed]; at any timestamp from [startTime] to
    [endTime], both included, a ballot with an accepted ciphertext from an
    identity that has not voted succeeds. *)
Theorem window_gating `{External} t p e enc prf :
  reachable t p →
  ((block_timestamp e < startTime p ∨ endTime p < block_timestamp e) →
     submitEncryptedVote e enc prf p = Revert VotingClosed)
  ∧ (startTime p ≤ block_timestamp e ≤ endTime p →
     hasVoted_at p (msg_sender e) = false →
     is_Some (fromExternal enc prf (msg_sender e)) →
     ∃ p', submitEncryptedVote e enc prf p = Ok p').
Proof.
  intros Hr. split.
  - intros Hout. unfold submitEncryptedVote.
    destruct (block_timestamp e <? startTime p) eqn:H1; [done|].
    destruct (endTime p <? block_timestamp e) eqn:H2; [done|].
    apply Z.ltb_ge in H1, H2. lia.
  - intros Hw Hnv [v Hf]. apply reachable_Inv in Hr as HI.
    pose proof (Inv_voterCount _ _ HI) as Hc.
    pose proof MAX_ADDRESS_lt_UINT256 as Hm.
    eexists. apply (submitEncryptedVote_succeeds _ _ _ _ v); try done. lia.
Qed.

Lemma window_gating_witness :
  submitEncryptedVote (Demo.at_time 4601 Demo.alice) 0 [] Demo.poll0
  = Revert VotingClosed
  ∧ ∃ p', submitEncryptedVote (Demo.at_time 4600 Demo.alice) 0 [] Demo.poll0 = Ok p'.
Proof.
  split.
  - apply (proj1 (window_gating 1000 Demo.poll0 (Demo.at_time 4601 Demo.alice) 0 []
                    reachable_poll0)).
    right. reflexivity.
  - apply (proj2 (window_gating 1000 Demo.poll0 (Demo.at_time 4600 Demo.alice) 0 []
                    reachable_poll0)).
    + vm_compute. split; discriminate.
    + reflexivity.
    + eexists. reflexivity.
Defined.

(** ** Finalisation *)

Section Lifecycle.
Context `{External}.

Lemma step_vote_fields e enc prf p :
  let p' := step e (SubmitEncryptedVote enc prf) p in
  finalized p' = finalized p ∧ decryptionPending p' = decryptionPending p ∧
  _clearTallies p' = _clearTallies p ∧ decryptionRequestId p' = decryptionRequestId p.
Proof.
  unfold step, exec.
  destruct (submitEncryptedVote e enc prf p) as [p'|err] eqn:Hx; [|done].
  apply submitEncryptedVote_Ok in Hx as (_ & _ & _ & v & _ & ->). done.
Qed.

Lemma request_reverts_when_finalized e p :
  finalized p = true → ∃ err, requestEncryptedTallyDecryption e p = Revert err.
Proof.
  intros Hf. unfold requestEncryptedTallyDecryption. rewrite Hf.
  destruct ((block_timestamp e =? endTime p) || (block_timestamp e <? endTime p)); eauto.
Qed.

Lemma callback_reverts_when_idle e rid clear sigs p :
  decryptionPending p = false →
  decryptionCallback e rid clear sigs p = Revert UnexpectedCallback.
Proof. intros Hp. unfold decryptionCallback. by rewrite Hp. Qed.

Lemma settled_step e tx p :
  settled p → settled (step e tx p) ∧ _clearTallies (step e tx p) = _clearTallies p.
Proof.
  intros [Hf Hp]. unfold settled. destruct tx as [enc prf| |rid clear sigs].
  - destruct (step_vote_fields e enc prf p) as (-> & -> & -> & _). done.
  - unfold step, exec. destruct (request_reverts_when_finalized e p Hf) as [err ->]. done.
  - unfold step, exec. by rewrite callback_reverts_when_idle.
Qed.

Lemma settled_steps txs p :
  settled p → settled (steps txs p) ∧ _clearTallies (steps txs p) = _clearTallies p.
Proof.
  revert p. induction txs as [|[e tx] txs IH]; intros p Hs; [done|].
  destruct (settled_step e tx p Hs) as [Hs' Hc].
  change (steps ((e, tx) :: txs) p) with (steps txs (step e tx p)).
  destruct (IH _ Hs') as [Hs'' Hc']. split; [done|]. congruence.
Qed.

Lemma finalized_only_by_callback e tx p :
  finalized p = false → finalized (step e tx p) = true →
  decryptionPending p = true ∧ ∃ rid clear sigs, tx = DecryptionCallback rid clear sigs.
Proof.
  intros Hf Hf'. destruct tx as [enc prf| |rid clear sigs].
  - destruct (step_vote_fields e enc prf p) as (Heq & _). congruence.
  - unfold step, exec in Hf'.
    destruct (requestEncryptedTallyDecryption e p) as [[p' r]|err] eqn:Hx; [|congruence].
    apply requestEncryptedTallyDecryption_Ok in Hx as (_ & _ & _ & _ & ->).
    simpl in Hf'. congruence.
  - unfold step, exec in Hf'.
    destruct (decryptionCallback e rid clear sigs p) as [[p' r]|err] eqn:Hx; [|congruence].
    apply decryptionCallback_Ok in Hx as (Hp & _). split; [done|]. eauto.
Qed.

End Lifecycle.

(** C5: after a successful [decryptionCallback], and after any further
    transactions, a second [decryptionCallback] (with the same or any other
    request id) fails with [UnexpectedCallback] and leaves the clear
    tallies, [finalized] and [decryptionPending] as the first call wrote
    them; [finalized] can only turn true in a [decryptionCallback] that
    found a request pending; and from a reachable finalized state no
    sequence of transactions makes [finalized] false again or rewrites the
    clear tallies. *)
Theorem finalize_exactly_once `{External} t p :
  reachable t p →
  (∀ e rid clear sigs p1 b,
     decryptionCallback e rid clear sigs p = Ok (p1, b) →
     ∀ txs e' rid' clear' sigs',
       let p2 := steps txs p1 in
       decryptionCallback e' rid' clear' sigs' p2 = Revert UnexpectedCallback ∧
       step e' (DecryptionCallback rid' clear' sigs') p2 = p2 ∧
       _clearTallies p2 = _clearTallies p1 ∧
       finalized p2 = true ∧ decryptionPending p2 = false)
  ∧ (∀ e tx, finalized p = false → finalized (step e tx p) = true →
       decryptionPending p = true ∧
       ∃ rid clear sigs, tx = DecryptionCallback rid clear sigs)
  ∧ (finalized p = true →
       ∀ txs, finalized (steps txs p) = true ∧
              _clearTallies (steps txs p) = _clearTallies p).
Proof.
  intros Hr. apply reachable_Inv in Hr as HI. split; [|split].
  - intros e rid clear sigs p1 b Hok txs e' rid' clear' sigs' p2.
    apply decryptionCallback_Ok in Hok as (_ & _ & _ & _ & l & _ & _ & ->).
    destruct (settled_steps txs (record_final p l l)) as [[Hf Hp] Hc]; [done|].
    fold p2 in Hf, Hp, Hc.
    pose proof (callback_reverts_when_idle e' rid' clear' sigs' p2 Hp) as Hrev.
    repeat split; try done. unfold step, exec. by rewrite Hrev.
  - intros e tx. apply finalized_only_by_callback.
  - intros Hf txs. destruct (inv_final _ _ HI Hf) as [Hp _].
    by destruct (settled_steps txs p) as [[-> _] ->].
Qed.

Lemma reachable_poll_pending : reachable 5000 poll_pending.
Proof.
  apply (reachable_step 1001 poll_after_alice (Demo.at_time 5000 Demo.bob)).
  - exact reachable_poll_after_alice.
  - apply valid_at_time; done.
  - done.
Qed.

Lemma reachable_poll_final : reachable 5001 poll_final.
Proof.
  apply (reachable_step 5000 poll_pending (Demo.at_time 5001 Demo.carol)).
  - exact reachable_poll_pending.
  - apply valid_at_time; done.
  - done.
Qed.

Lemma finalize_exactly_once_witness :
  (decryptionCallback (Demo.at_time 5002 Demo.carol) 7 payload_1_0 some_signature poll_final
   = Revert UnexpectedCallback ∧
   step (Demo.at_time 5002 Demo.carol) (DecryptionCallback 7 payload_1_0 some_signature)
     poll_final = poll_final ∧
   _clearTallies poll_final = [1; 0] ∧
   finalized poll_final = true ∧ decryptionPending poll_final = false)
  ∧ (finalized
       (steps [(Demo.at_time 5003 Demo.bob, RequestEncryptedTallyDecryption);
               (Demo.at_time 5004 Demo.bob, DecryptionCallback 7 [Byte.x09; Byte.x09] some_signature)]
          poll_final) = true
     ∧ _clearTallies
         (steps [(Demo.at_time 5003 Demo.bob, RequestEncryptedTallyDecryption);
                 (Demo.at_time 5004 Demo.bob, DecryptionCallback 7 [Byte.x09; Byte.x09] some_signature)]
            poll_final) = _clearTallies poll_final).
Proof.
  split.
  - apply (proj1 (finalize_exactly_once 5000 poll_pending reachable_poll_pending)
             (Demo.at_time 5001 Demo.carol) 7 payload_1_0 some_signature poll_final true
             eq_refl []).
  - apply (proj2 (proj2 (finalize_exactly_once 5001 poll_final reachable_poll_final))).
    reflexivity.
Defined.

(** C7: in a reachable state, at a block no earlier than the last one,
    [requestEncryptedTallyDecryption] fails with [VotingStillOpen] when the
    timestamp is before [endTime], with [AlreadyFinalized] when the poll is
    finalized, and with [DecryptionAlreadyPending] when a request is
    pending; a failed call changes nothing. *)
Theorem request_guards `{External} t p e :
  reachable t p → t ≤ block_timestamp e →
  (block_timestamp e < endTime p →
     requestEncryptedTallyDecryption e p = Revert VotingStillOpen)
  ∧ (finalized p = true →
     requestEncryptedTallyDecryption e p = Revert AlreadyFinalized)
  ∧ (decryptionPending p = true →
     requestEncryptedTallyDecryption e p = Revert DecryptionAlreadyPending)
  ∧ (∀ err, requestEncryptedTallyDecryption e p = Revert err →
       step e RequestEncryptedTallyDecryption p = p).
Proof.
  intros Hr Hle. apply reachable_Inv in Hr as HI.
  unfold requestEncryptedTallyDecryption. repeat split.
  - intros Hlt. rewrite (proj2 (Z.ltb_lt _ _) Hlt). by rewrite orb_true_r.
  - intros Hf. destruct (inv_final _ _ HI Hf) as [_ Hend].
    rewrite (proj2 (Z.eqb_neq _ _)), (proj2 (Z.ltb_ge _ _)) by lia.
    simpl. by rewrite Hf.
  - intros Hp. destruct (inv_pending _ _ HI Hp) as [Hf Hend].
    rewrite (proj2 (Z.eqb_neq _ _)), (proj2 (Z.ltb_ge _ _)) by lia.
    simpl. by rewrite Hf, Hp.
  - intros err Herr. unfold step, exec, requestEncryptedTallyDecryption.
    by rewrite Herr.
Qed.

Lemma request_guards_witness :
  requestEncryptedTallyDecryption (Demo.at_time 1002 Demo.bob) poll_after_alice
  = Revert VotingStillOpen
  ∧ requestEncryptedTallyDecryption (Demo.at_time 5002 Demo.bob) poll_final
    = Revert AlreadyFinalized
  ∧ requestEncryptedTallyDecryption (Demo.at_time 5001 Demo.bob) poll_pending
    = Revert DecryptionAlreadyPending
  ∧ step (Demo.at_time 5001 Demo.bob) RequestEncryptedTallyDecryption poll_pending
    = poll_pending.
Proof.
  pose proof (request_guards 1001 poll_after_alice (Demo.at_time 1002 Demo.bob)
                reachable_poll_after_alice) as G1.
  pose proof (request_guards 5001 poll_final (Demo.at_time 5002 Demo.bob)
                reachable_poll_final) as G2.
  pose proof (request_guards 5000 poll_pending (Demo.at_time 5001 Demo.bob)
                reachable_poll_pending) as G3.
  split; [apply G1; [vm_compute; discriminate | reflexivity]|].
  split; [apply G2; [vm_compute; discriminate | reflexivity]|].
  split; [apply G3; [vm_compute; discriminate | reflexivity]|].
  apply (proj2 (proj2 (proj2 (G3 ltac:(vm_compute; discriminate)))) DecryptionAlreadyPending).
  reflexivity.
Defined.

(** C8: in a reachable state with a request pending, a callback that
    carries the recorded request id and accepted signatures but whose
    payload decodes to a list of a length other than the option count fails
    with [InvalidTallyLength]; [finalized] stays false, [decryptionPending]
    stays true and the clear tallies are as before. *)
Theorem callback_length_integrity `{External} t p e rid clear sigs l :
  reachable t p →
  decryptionPending p = true → rid = decryptionRequestId p →
  checkSignatures rid clear sigs = true →
  abi_decode clear = Some l → Z.of_nat (length l) ≠ optionCount p →
  decryptionCallback e rid clear sigs p = Revert InvalidTallyLength ∧
  let p' := step e (DecryptionCallback rid clear sigs) p in
  p' = p ∧ finalized p' = false ∧ decryptionPending p' = true ∧
  _clearTallies p' = _clearTallies p.
Proof.
  intros Hr Hp -> Hs Hd Hlen. apply reachable_Inv in Hr as HI.
  assert (decryptionCallback e (decryptionRequestId p) clear sigs p
          = Revert InvalidTallyLength) as Hrev.
  { unfold decryptionCallback.
    rewrite Hp, Z.eqb_refl, Hs, Hd. simpl.
    rewrite bool_decide_eq_true_2; [done|].
    unfold optionCount in Hlen. rewrite (inv_len_clear _ _ HI). lia. }
  split; [done|]. unfold step, exec. rewrite Hrev.
  destruct (inv_pending _ _ HI Hp) as [Hf _]. done.
Qed.

Lemma callback_length_integrity_witness :
  decryptionCallback (Demo.at_time 5001 Demo.carol) 7 [Byte.x01] some_signature poll_pending
  = Revert InvalidTallyLength ∧
  step (Demo.at_time 5001 Demo.carol) (DecryptionCallback 7 [Byte.x01] some_signature)
    poll_pending = poll_pending ∧
  finalized (step (Demo.at_time 5001 Demo.carol)
               (DecryptionCallback 7 [Byte.x01] some_signature) poll_pending) = false ∧
  decryptionPending (step (Demo.at_time 5001 Demo.carol)
               (DecryptionCallback 7 [Byte.x01] some_signature) poll_pending) = true ∧
  _clearTallies (step (Demo.at_time 5001 Demo.carol)
               (DecryptionCallback 7 [Byte.x01] some_signature) poll_pending)
  = _clearTallies poll_pending.
Proof.
  apply (callback_length_integrity 5000 poll_pending (Demo.at_time 5001 Demo.carol)
           7 [Byte.x01] some_signature [1]).
  - exact reachable_poll_pending.
  - reflexivity.
  - reflexivity.
  - reflexivity.
  - reflexivity.
  - vm_compute. discriminate.
Defined.

(** ** Construction *)

Lemma step_keeps_metadata `{External} e tx p :
  let p' := step e tx p in
  pollName p' = pollName p ∧ pollDescription p' = pollDescription p ∧
  _options p' = _options p ∧ startTime p' = startTime p ∧ endTime p' = endTime p.
Proof.
  unfold step, exec. destruct tx as [enc prf| |rid clear sigs].
  - destruct (submitEncryptedVote e enc prf p) as [p'|err] eqn:Hx; [|done].
    apply submitEncryptedVote_Ok in Hx as (_ & _ & _ & v & _ & ->). done.
  - destruct (requestEncryptedTallyDecryption e p) as [[p' r]|err] eqn:Hx; [|done].
    apply requestEncryptedTallyDecryption_Ok in Hx as (_ & _ & _ & _ & ->). done.
  - destruct (decryptionCallback e rid clear sigs p) as [[p' r]|err] eqn:Hx; [|done].
    apply decryptionCallback_Ok in Hx as (_ & _ & _ & _ & l & _ & _ & ->). done.
Qed.

Lemma steps_keep_metadata `{External} txs p :
  pollName (steps txs p) = pollName p ∧
  pollDescription (steps txs p) = pollDescription p ∧
  _options (steps txs p) = _options p ∧
  startTime (steps txs p) = startTime p ∧ endTime (steps txs p) = endTime p.
Proof.
  revert p. induction txs as [|[e tx] txs IH]; intros p; [done|].
  change (steps ((e, tx) :: txs) p) with (steps txs (step e tx p)).
  destruct (IH (step e tx p)) as (-> & -> & -> & -> & ->).
  apply step_keeps_metadata.
Qed.

(** C9 (as amended): the constructor fails with [InsufficientOptions] for
    every label list shorter than two; with two or more labels it fails
    with [MismatchedOptionMetadata] whenever the description list has a
    different length; a zero duration is rejected (with
    [InvalidVotingDuration] when the lists are acceptable); every successful
    construction has [startTime < endTime]; and no later transaction
    changes the name, the description, the options, [startTime] or
    [endTime]. *)
Theorem constructor_validation `{External} e name headline desc labels descs duration :
  0 ≤ duration < MAX_UINT256 →
  ((length labels < 2)%nat →
     constructor e name headline desc labels descs duration = Revert InsufficientOptions)
  ∧ ((2 ≤ length labels)%nat → length descs ≠ length labels →
     constructor e name headline desc labels descs duration
     = Revert MismatchedOptionMetadata)
  ∧ (duration = 0 →
     (∃ err, constructor e name headline desc labels descs duration = Revert err) ∧
     ((2 ≤ length labels)%nat → length descs = length labels →
      constructor e name headline desc labels descs duration
      = Revert InvalidVotingDuration))
  ∧ (∀ p, constructor e name headline desc labels descs duration = Ok p →
       startTime p < endTime p ∧
       ∀ txs, let p' := steps txs p in
         pollName p' = name ∧ pollDescription p' = desc ∧
         _options p' = _options p ∧
         startTime p' = startTime p ∧ endTime p' = endTime p).
Proof.
  intros Hd. split; [|split; [|split]].
  - intros Hlt. unfold constructor. by rewrite bool_decide_eq_true_2.
  - intros Hge Hne. unfold constructor.
    rewrite bool_decide_eq_false_2 by lia. by rewrite bool_decide_eq_true_2.
  - intros ->. unfold constructor. split.
    + repeat case_bool_decide; eauto.
    + intros Hge Heq. rewrite bool_decide_eq_false_2 by lia.
      by rewrite bool_decide_eq_false_2 by (intros ?; done).
  - intros p Hok. apply constructor_Ok in Hok as (_ & _ & Hne & _ & ->).
    split; [simpl; lia|]. intros txs. cbv zeta.
    set (p0 := set_options _ _ _ _).
    change name with (pollName p0). change desc with (pollDescription p0).
    apply steps_keep_metadata.
Qed.

Lemma constructor_validation_witness :
  constructor (Demo.at_time 1000 Demo.deployer) "P" "H" "D" ["X"%string] ["x"%string] 3600
  = Revert InsufficientOptions
  ∧ constructor (Demo.at_time 1000 Demo.deployer) "P" "H" "D"
      ["X"; "Y"; "Z"]%string ["x"; "y"]%string 3600
    = Revert MismatchedOptionMetadata
  ∧ constructor (Demo.at_time 1000 Demo.deployer) "P" "H" "D"
      ["X"; "Y"]%string ["x"; "y"]%string 0 = Revert InvalidVotingDuration
  ∧ startTime Demo.poll0 < endTime Demo.poll0
  ∧ endTime poll_final = endTime Demo.poll0.
Proof.
  pose proof (λ l d n Hn, constructor_validation (Demo.at_time 1000 Demo.deployer)
                "P" "H" "D" l d n Hn) as V.
  split; [apply V; [done | simpl; lia]|].
  split; [apply V; [done | simpl; lia | simpl; lia]|].
  split; [apply (V ["X"; "Y"]%string ["x"; "y"]%string 0); [done | done | simpl; lia | done]|].
  destruct (V ["X"; "Y"]%string ["x"; "y"]%string 3600 ltac:(done)) as (_ & _ & _ & V4).
  destruct (V4 Demo.poll0 deploy_poll0) as [Hlt Himm].
  split; [exact Hlt|].
  apply (Himm [(Demo.at_time 1001 Demo.alice, SubmitEncryptedVote 0 []);
               (Demo.at_time 5000 Demo.bob, RequestEncryptedTallyDecryption);
               (Demo.at_time 5001 Demo.carol,
                DecryptionCallback 7 payload_1_0 some_signature)]).
Defined.

(** C9 as stated fails: with one label and no description the lists
    differ in length, yet the constructor reports [InsufficientOptions],
    not [MismatchedOptionMetadata]. *)
Lemma mismatch_hidden_by_InsufficientOptions :
  length ([] : list string) ≠ length ["X"%string] ∧
  constructor (Demo.at_time 1000 Demo.deployer) "P" "H" "D" ["X"%string] [] 3600
  = Revert InsufficientOptions ∧
  constructor (Demo.at_time 1000 Demo.deployer) "P" "H" "D" ["X"%string] [] 3600
  ≠ Revert MismatchedOptionMetadata.
Proof. split; [done|]. split; [reflexivity|discriminate]. Qed.

(** C10: [decryptionCallback] never looks at the caller.  Its outcome is the
    same under any two transaction environments, and it is accepted exactly
    when a request is pending, the request id equals the recorded one, the
    signature check passes, and the payload decodes to as many tallies as
    there are clear-tally slots. *)
Theorem callback_ignores_caller `{External} e1 e2 rid clear sigs p :
  decryptionCallback e1 rid clear sigs p = decryptionCallback e2 rid clear sigs p
  ∧ ((∃ p' b, decryptionCallback e1 rid clear sigs p = Ok (p', b))
     ↔ (decryptionPending p = true ∧ rid = decryptionRequestId p ∧
        checkSignatures rid clear sigs = true ∧
        ∃ l, abi_decode clear = Some l ∧ length l = length (_clearTallies p))).
Proof.
  split; [reflexivity|]. split.
  - intros (p' & b & Hok).
    apply decryptionCallback_Ok in Hok as (Hp & Hr & Hs & _ & l & Hd & Hl & _).
    eauto 10.
  - intros (Hp & Hr & Hs & l & Hd & Hl).
    eexists _, _. by apply decryptionCallback_succeeds.
Qed.

(** ** A whole poll: ballots, request, callback *)

Lemma sumZ_insert (l : list Z) i x y :
  l !! i = Some x → sumZ (<[i := y]> l) = sumZ l - x + y.
Proof.
  revert i. induction l as [|z l IH]; intros [|i] Hi; try done; simpl in *.
  - injection Hi as ->. lia.
  - rewrite (IH i Hi). lia.
Qed.

Lemma sumZ_lookup_le (l : list Z) i x :
  Forall (λ z, 0 ≤ z) l → l !! i = Some x → x ≤ sumZ l.
Proof.
  intros HF. revert i. induction HF as [|z l Hz HF IH]; intros [|i] Hi; try done; simpl in *.
  - injection Hi as ->. assert (0 ≤ sumZ l); [|lia].
    clear -HF. induction HF; simpl; [done|lia].
  - specialize (IH i Hi). lia.
Qed.

Lemma sumZ_replicate_0 n : sumZ (replicate n 0) = 0.
Proof. induction n; simpl; lia. Qed.

Lemma read_clear_tallies_final p :
  finalized p = true → length (_clearTallies p) = length (_options p) →
  read_clear_tallies p = Ok <$> _clearTallies p.
Proof.
  intros Hf Hlen. unfold read_clear_tallies. apply list_eq. intros i.
  rewrite !list_lookup_fmap. rewrite <- Hlen.
  destruct (decide (i < length (_clearTallies p))%nat) as [Hi|Hi].
  - rewrite lookup_seq_lt by done. simpl.
    destruct (lookup_lt_is_Some_2 (_clearTallies p) i Hi) as [c Hc]. rewrite Hc. simpl.
    unfold getClearTally. rewrite Hf. simpl.
    rewrite bool_decide_eq_false_2 by lia.
    rewrite (proj2 (Z.ltb_ge _ _)) by lia. simpl.
    by rewrite Nat2Z.id, Hc.
  - rewrite lookup_seq_ge by lia. by rewrite lookup_ge_None_2 by lia.
Qed.

Section Conservation.
Context `{External}.

Lemma cast_votes_cons b bs p :
  cast_votes (b :: bs) p
  = match submitEncryptedVote (ballot_env b) (ballot_option b) (ballot_proof b) p with
    | Ok q => cast_votes bs q
    | Revert err => Revert err
    end.
Proof.
  unfold cast_votes. simpl.
  destruct (submitEncryptedVote _ _ _ p) as [q|err]; [done|].
  induction bs as [|b' bs IH]; [done|]. exact IH.
Qed.

Lemma plains_nonneg p : tallies_wf p → Forall (λ z, 0 ≤ z) (plains p).
Proof.
  intros Hwf. apply Forall_forall. intros z Hz.
  apply list_elem_of_lookup in Hz as [i Hi].
  pose proof (plains_range _ _ _ Hwf Hi). lia.
Qed.

(** While the tallies cannot wrap, every accepted in-range ballot adds one
    to the sum of the tallies and one to the voter count. *)
Lemma cast_votes_conserves bs : ∀ p p1,
  tallies_wf p → optionCount p ≤ MAX_UINT32 →
  cast_votes bs p = Ok p1 →
  Forall (λ bl, ∃ v, ballot_choice bl = Some v ∧ v < optionCount p) bs →
  sumZ (plains p) + Z.of_nat (length bs) < MAX_UINT32 →
  sumZ (plains p1) = sumZ (plains p) + Z.of_nat (length bs) ∧
  voterCount p1 = voterCount p + Z.of_nat (length bs) ∧
  _options p1 = _options p ∧ _clearTallies p1 = _clearTallies p.
Proof.
  induction bs as [|b bs IH]; intros p p1 Hwf HN Hcast Hall Hsum.
  - injection Hcast as <-. simpl. repeat split; lia.
  - rewrite cast_votes_cons in Hcast.
    destruct (submitEncryptedVote _ _ _ p) as [q|err] eqn:Hq; [|done].
    apply submitEncryptedVote_Ok in Hq as (_ & _ & _ & v & Hv & ->).
    apply Forall_cons in Hall as [(v' & Hv' & Hlt) Hall].
    unfold ballot_choice in Hv'. assert (v' = v) as -> by congruence.
    pose proof (fromExternal_range _ _ _ _ Hv) as Hrange.
    destruct (lookup_lt_is_Some_2 (plains p) (Z.to_nat v)) as [x Hx].
    { pose proof (length_plains _ Hwf). lia. }
    pose proof (sumZ_lookup_le _ _ _ (plains_nonneg _ Hwf) Hx) as Hle.
    pose proof (plains_range _ _ _ Hwf Hx) as Hxr.
    rewrite length_cons, Nat2Z.inj_succ in Hsum. rewrite length_cons, Nat2Z.inj_succ.
    set (q := record_vote _ _) in *.
    assert (plains q = <[Z.to_nat v := x + 1]> (plains p)) as Hq.
    { unfold q. rewrite (plains_voted_in_range _ _ _ _ x) by (try done; lia).
      by rewrite Z.mod_small by lia. }
    destruct (IH q p1) as (Hs & Hc & Ho & Hcl); try done.
    + by apply tallies_wf_vote.
    + rewrite Hq, (sumZ_insert _ _ x) by done. lia.
    + rewrite Hs, Hc, Ho, Hcl, Hq, (sumZ_insert _ _ x) by done.
      simpl. repeat split; lia.
Qed.

End Conservation.

(** C2 (as amended): for a poll with at most 2^32 options and any sequence
    of k < 2^32 successful [submitEncryptedVote] calls, each for one of the
    options, once the oracle's callback with the decrypted tallies has
    been accepted the values [getClearTally i] over all options add up to
    exactly k, and [voterCount] is k. *)
Theorem tally_conservation `{External} e0 name headline desc labels descs duration
    ballots e1 e2 clear sigs p3 :
  poll_run e0 name headline desc labels descs duration ballots e1 e2 clear sigs p3 →
  Z.of_nat (length labels) ≤ MAX_UINT32 →
  Z.of_nat (length ballots) < MAX_UINT32 →
  conserved (Z.of_nat (length ballots)) p3.
Proof.
  intros (p0 & p1 & p2 & rid & b & Hc & Hcast & Hall & Hreq & Hdec & Hcb) HN Hk.
  apply constructor_Ok in Hc as (Hn & Hlen & _ & _ & ->).
  set (p0 := set_options _ _ _ _) in *.
  assert (tallies_wf p0) as Hwf.
  { split; simpl.
    - by rewrite length_replicate, length_zip_with, Hlen, Nat.min_id.
    - apply Forall_replicate. simpl. rewrite uint32_small; done. }
  assert (length (_options p0) = length labels) as Hopts.
  { simpl. by rewrite length_zip_with, Hlen, Nat.min_id. }
  assert (sumZ (plains p0) = 0) as Hsum0.
  { unfold plains. simpl. rewrite fmap_replicate. simpl.
    rewrite uint32_small by done. apply sumZ_replicate_0. }
  destruct (cast_votes_conserves ballots p0 p1) as (Hs & Hv & Ho & Hcl); try done.
  all: try (unfold optionCount; by rewrite Hopts).
  all: try (rewrite Hsum0; lia).
  rewrite Hsum0 in Hs. change (voterCount p0) with 0 in Hv.
  apply requestEncryptedTallyDecryption_Ok in Hreq as (_ & _ & _ & -> & ->).
  apply decryptionCallback_Ok in Hcb as (_ & _ & _ & _ & l & Hl & Hll & ->).
  assert (l = plains p1) as -> by (unfold plains in *; simpl in *; congruence).
  split; [simpl; lia|]. exists (plains p1). split; [|lia].
  apply read_clear_tallies_final; [done|]. simpl in *.
  rewrite Hll, Hcl, Ho. simpl. by rewrite length_replicate, Hopts.
Qed.

Lemma scenario_A_runs :
  poll_run (Demo.at_time 1000 Demo.deployer) "P" "H" "D"
    ["X"; "Y"]%string ["x"; "y"]%string 3600
    scenario_A_ballots (Demo.at_time 5000 Demo.deployer) (Demo.at_time 5001 Demo.deployer)
    [Byte.x01; Byte.x02] some_signature scenario_A_final.
Proof.
  eexists _, _, _, _, _.
  split; [exact deploy_poll0|].
  split; [vm_compute; reflexivity|].
  split.
  { repeat apply Forall_cons_2; try apply Forall_nil_2;
      eexists; (split; [reflexivity|done]). }
  split; [vm_compute; reflexivity|].
  split; [reflexivity|]. vm_compute. reflexivity.
Qed.

Lemma tally_conservation_witness :
  conserved (Z.of_nat (length scenario_A_ballots)) scenario_A_final.
Proof.
  apply (tally_conservation (Demo.at_time 1000 Demo.deployer) "P" "H" "D"
           ["X"; "Y"]%string ["x"; "y"]%string 3600
           scenario_A_ballots (Demo.at_time 5000 Demo.deployer)
           (Demo.at_time 5001 Demo.deployer) [Byte.x01; Byte.x02] some_signature).
  - exact scenario_A_runs.
  - vm_compute. discriminate.
  - reflexivity.
Defined.

(** ** More ballots than a 32-bit counter can hold *)

Section SameChoice.
Context `{External}.

Lemma hasVoted_at_record_vote_ne p a a' :
  a ≠ a' → hasVoted_at (record_vote p a) a' = hasVoted_at p a'.
Proof. intros Hne. unfold hasVoted_at. simpl. by rewrite lookup_insert_ne. Qed.

Lemma request_succeeds e p :
  endTime p < block_timestamp e → finalized p = false → decryptionPending p = false →
  requestEncryptedTallyDecryption e p
  = Ok (record_request p (oracle_request_id e), oracle_request_id e).
Proof.
  intros Ht Hf Hp. unfold requestEncryptedTallyDecryption.
  rewrite (proj2 (Z.eqb_neq _ _)), (proj2 (Z.ltb_ge _ _)) by lia.
  simpl. by rewrite Hf, Hp.
Qed.

(** Every identity of [voters], none of whom has voted, casts a ballot for
    the same option [v] at time [t]: all are accepted, and counter [v]
    ends up raised by their number, modulo 2^32. *)
Lemma cast_votes_same_choice t rid0 enc prf v voters : ∀ p,
  NoDup voters →
  Forall (λ a, hasVoted_at p a = false) voters →
  startTime p ≤ t ≤ endTime p →
  (∀ a, fromExternal enc prf a = Some v) →
  0 ≤ v < optionCount p → optionCount p ≤ MAX_UINT32 →
  tallies_wf p →
  voterCount p + Z.of_nat (length voters) < MAX_UINT256 →
  ∃ p1,
    cast_votes ((λ a, mk_Ballot (mk_Env t a rid0) enc prf) <$> voters) p = Ok p1 ∧
    plains p1
    = alter (λ x, (x + Z.of_nat (length voters)) mod MAX_UINT32) (Z.to_nat v) (plains p) ∧
    voterCount p1 = voterCount p + Z.of_nat (length voters) ∧
    same_frame p p1.
Proof.
  induction voters as [|a voters IH]; intros p Hnd Hfresh Hw Hext Hv HN Hwf Hcount.
  - exists p. split; [done|]. split; [|split; [simpl; lia|by repeat split]].
    apply list_eq. intros j. rewrite list_lookup_alter. case_decide; [subst j|done].
    destruct (plains p !! Z.to_nat v) as [x|] eqn:Hx; [|done]. simpl.
    pose proof (plains_range _ _ _ Hwf Hx). rewrite Z.add_0_r, Z.mod_small; done.
  - apply NoDup_cons in Hnd as [Hnotin Hnd].
    apply Forall_cons in Hfresh as [Ha Hfresh].
    rewrite length_cons, Nat2Z.inj_succ in Hcount.
    rewrite fmap_cons, cast_votes_cons. cbn [ballot_env ballot_option ballot_proof].
    rewrite (submitEncryptedVote_succeeds _ _ _ _ v) by (try done; simpl; lia).
    set (q := record_vote _ _).
    destruct (lookup_lt_is_Some_2 (plains p) (Z.to_nat v)) as [x Hx].
    { pose proof (length_plains _ Hwf). lia. }
    assert (plains q = <[Z.to_nat v := (x + 1) mod MAX_UINT32]> (plains p)) as Hq.
    { unfold q. apply plains_voted_in_range; try done. lia. }
    destruct (IH q) as (p1 & Hcast & Hpl & Hvc & Hfr); try done.
    + apply Forall_forall. intros a' Ha'. unfold q. cbn [msg_sender].
      rewrite hasVoted_at_record_vote_ne by (intros ->; done).
      rewrite Forall_forall in Hfresh. by apply Hfresh.
    + by apply tallies_wf_vote.
    + change (voterCount q) with (voterCount p + 1). lia.
    + exists p1. split; [done|].
      rewrite length_cons, Nat2Z.inj_succ.
      split; [|split; [change (voterCount q) with (voterCount p + 1) in Hvc; lia|exact Hfr]].
      rewrite Hpl, Hq. apply list_eq. intros j. rewrite !list_lookup_alter.
      case_decide as Hj.
      * subst j. rewrite list_lookup_insert_eq by by eapply lookup_lt_Some.
        rewrite Hx. simpl. f_equal.
        rewrite Z.add_mod_idemp_l by done. f_equal. lia.
      * by rewrite list_lookup_insert_ne.
Qed.

End SameChoice.

Lemma length_electorate : Z.of_nat (length electorate) = MAX_UINT32.
Proof. unfold electorate. rewrite length_seqZ. apply Z2Nat.id. done. Qed.

Lemma length_electorate_ballots : Z.of_nat (length electorate_ballots) = MAX_UINT32.
Proof. unfold electorate_ballots. rewrite length_fmap. apply length_electorate. Qed.

Lemma NoDup_electorate : NoDup electorate.
Proof. apply NoDup_seqZ. Qed.

Lemma alter_head {A} (f : A → A) x (l : list A) : alter f 0%nat (x :: l) = f x :: l.
Proof. reflexivity. Qed.

(** The electorate is only ever reasoned about, never enumerated. *)
Opaque electorate.

Lemma electorate_votes :
  ∃ p1, cast_votes electorate_ballots Demo.poll0 = Ok p1 ∧
        plains p1 = [0; 0] ∧ voterCount p1 = MAX_UINT32 ∧ same_frame Demo.poll0 p1.
Proof.
  destruct (cast_votes_same_choice 1001 7 0 [] 0 electorate Demo.poll0)
    as (p1 & Hcast & Hpl & Hvc & Hfr).
  - exact NoDup_electorate.
  - apply Forall_forall. intros a _. unfold hasVoted_at.
    change (hasVoted Demo.poll0) with (∅ : gmap address bool).
    by rewrite lookup_empty.
  - change (1000 ≤ 1001 ≤ 4600). lia.
  - intros a. reflexivity.
  - change (0 ≤ 0 < 2). lia.
  - change (2 ≤ MAX_UINT32). discriminate.
  - exact (Inv_tallies_wf _ _ (reachable_Inv _ _ reachable_poll0)).
  - rewrite length_electorate. reflexivity.
  - exists p1. split; [exact Hcast|]. clear Hcast.
    split; [|split; [|exact Hfr]].
    + rewrite Hpl. change (plains Demo.poll0) with [0; 0].
      change (Z.to_nat 0) with 0%nat.
      rewrite alter_head, length_electorate. reflexivity.
    + rewrite Hvc, length_electorate. reflexivity.
Qed.

(** C2 as stated fails: when 2^32 identities all vote for option 0 of a
    two-option poll, every ballot is accepted and [voterCount] is 2^32,
    but the 32-bit encrypted counter has wrapped to 0, so the clear
    tallies the oracle decrypts add up to 0. *)
Lemma tally_conservation_fails_at_2_pow_32 :
  ∃ p3,
    poll_run (Demo.at_time 1000 Demo.deployer) "P" "H" "D"
      ["X"; "Y"]%string ["x"; "y"]%string 3600
      electorate_ballots (Demo.at_time 5000 Demo.deployer) (Demo.at_time 5001 Demo.deployer)
      [Byte.x00; Byte.x00] some_signature p3 ∧
    Z.of_nat (length electorate_ballots) = MAX_UINT32 ∧
    voterCount p3 = MAX_UINT32 ∧
    read_clear_tallies p3 = [Ok 0; Ok 0] ∧
    ¬ conserved (Z.of_nat (length electorate_ballots)) p3.
Proof.
  destruct electorate_votes as (p1 & Hcast & Hpl & Hvc & Hs & He & Hf & Hp & Hcl & Ho).
  set (p2 := record_request p1 7).
  set (p3 := record_final p2 [0; 0] [0; 0]).
  assert (read_clear_tallies p3 = [Ok 0; Ok 0]) as Hread.
  { clear Hcast. rewrite read_clear_tallies_final.
    - reflexivity.
    - reflexivity.
    - change (_options p3) with (_options p1). rewrite Ho. reflexivity. }
  exists p3. split; [|split; [apply length_electorate_ballots|split; [exact Hvc|split; [exact Hread|]]]].
  - exists Demo.poll0, p1, p2, 7, true.
    split; [exact deploy_poll0|]. split; [exact Hcast|]. split.
    { apply Forall_forall. intros bl Hbl.
      apply list_elem_of_fmap in Hbl as (a & -> & _). exists 0.
      split; [reflexivity|reflexivity]. }
    clear Hcast. split.
    { apply (request_succeeds (Demo.at_time 5000 Demo.deployer)).
      - rewrite He. reflexivity.
      - rewrite Hf. reflexivity.
      - rewrite Hp. reflexivity. }
    split.
    { change (plains p2) with (plains p1). rewrite Hpl. reflexivity. }
    apply decryptionCallback_succeeds; try reflexivity.
    change (_clearTallies p2) with (_clearTallies p1). rewrite Hcl. reflexivity.
  - clear Hcast. intros [_ (cs & Hcs & Hsum)]. rewrite Hread in Hcs.
    rewrite length_electorate_ballots in Hsum.
    destruct cs as [|c0 [|c1 [|c2 cs]]]; try discriminate Hcs.
    injection Hcs as <- <-. discriminate Hsum.
Qed.


(** * Further properties of the contract *)

(** ** Indexed accessors *)

Lemma index_guard {A} (l : list A) (index : Z) :
  0 ≤ index →
  bool_decide (length l = 0%nat) || (Z.of_nat (length l) - 1 <? index)
  = bool_decide (Z.of_nat (length l) ≤ index).
Proof.
  intros Hi. destruct (decide (Z.of_nat (length l) ≤ index)) as [Hle|Hgt].
  - rewrite (bool_decide_eq_true_2 _ Hle).
    rewrite (proj2 (Z.ltb_lt _ _)) by lia. apply orb_true_r.
  - rewrite (bool_decide_eq_false_2 _ Hgt).
    rewrite bool_decide_eq_false_2 by lia.
    rewrite (proj2 (Z.ltb_ge _ _)) by lia. done.
Qed.

Lemma getOption_spec index p :
  0 ≤ index →
  getOption index p
  = match _options p !! Z.to_nat index with
    | Some o => Ok o
    | None => Revert (InvalidOptionIndex index)
    end.
Proof.
  intros Hi. unfold getOption. rewrite index_guard by done. case_bool_decide as Hb.
  - rewrite lookup_ge_None_2 by lia. done.
  - destruct (lookup_lt_is_Some_2 (_options p) (Z.to_nat index)) as [o ->]; [lia|done].
Qed.

Lemma getEncryptedTally_spec index p :
  0 ≤ index →
  getEncryptedTally index p
  = match _encryptedTallies p !! Z.to_nat index with
    | Some c => Ok c
    | None => Revert (InvalidOptionIndex index)
    end.
Proof.
  intros Hi. unfold getEncryptedTally. rewrite index_guard by done. case_bool_decide as Hb.
  - rewrite lookup_ge_None_2 by lia. done.
  - destruct (lookup_lt_is_Some_2 (_encryptedTallies p) (Z.to_nat index)) as [o ->];
      [lia|done].
Qed.

Lemma getClearTally_spec index p :
  0 ≤ index →
  getClearTally index p
  = if finalized p
    then match _clearTallies p !! Z.to_nat index with
         | Some c => Ok c
         | None => Revert (InvalidOptionIndex index)
         end
    else Revert TallyNotFinalized.
Proof.
  intros Hi. unfold getClearTally. destruct (finalized p); [|done]. simpl.
  rewrite index_guard by done. case_bool_decide as Hb.
  - rewrite lookup_ge_None_2 by lia. done.
  - destruct (lookup_lt_is_Some_2 (_clearTallies p) (Z.to_nat index)) as [o ->];
      [lia|done].
Qed.

(** X1: in every reachable state [getOption] and [getEncryptedTally] agree
    on which indices exist: for an index below [optionCount] both return
    the stored entry, and for any other index both revert with
    [InvalidOptionIndex] carrying that index; neither ever reads out of
    bounds. *)
Theorem option_accessors_bounds `{External} t p index :
  reachable t p → 0 ≤ index →
  (index < optionCount p →
     ∃ o c, _options p !! Z.to_nat index = Some o ∧
            _encryptedTallies p !! Z.to_nat index = Some c ∧
            getOption index p = Ok o ∧ getEncryptedTally index p = Ok c)
  ∧ (optionCount p ≤ index →
     getOption index p = Revert (InvalidOptionIndex index) ∧
     getEncryptedTally index p = Revert (InvalidOptionIndex index)).
Proof.
  intros Hr Hi. apply reachable_Inv in Hr as HI.
  pose proof (inv_len_enc _ _ HI) as Hlen. unfold optionCount.
  rewrite getOption_spec, getEncryptedTally_spec by done. split.
  - intros Hlt.
    destruct (lookup_lt_is_Some_2 (_options p) (Z.to_nat index)) as [o Ho]; [lia|].
    destruct (lookup_lt_is_Some_2 (_encryptedTallies p) (Z.to_nat index)) as [c Hc]; [lia|].
    exists o, c. by rewrite Ho, Hc.
  - intros Hge. by rewrite !lookup_ge_None_2 by lia.
Qed.

Lemma option_accessors_bounds_witness :
  (∃ o c, _options poll_after_alice !! Z.to_nat 1 = Some o ∧
          _encryptedTallies poll_after_alice !! Z.to_nat 1 = Some c ∧
          getOption 1 poll_after_alice = Ok o ∧
          getEncryptedTally 1 poll_after_alice = Ok c)
  ∧ getOption 2 poll_after_alice = Revert (InvalidOptionIndex 2)
  ∧ getEncryptedTally 2 poll_after_alice = Revert (InvalidOptionIndex 2).
Proof.
  split.
  - apply (proj1 (option_accessors_bounds 1001 poll_after_alice 1
                    reachable_poll_after_alice ltac:(done))).
    reflexivity.
  - apply (proj2 (option_accessors_bounds 1001 poll_after_alice 2
                    reachable_poll_after_alice ltac:(done))).
    vm_compute. discriminate.
Defined.

(** X2: [getClearTally] is gated on finalization before it looks at the
    index.  In a reachable state that is not finalized it reverts with
    [TallyNotFinalized] for every index, valid or not; once finalized it
    returns the stored clear tally for an index below [optionCount] and
    reverts with [InvalidOptionIndex] for any other. *)
Theorem getClearTally_gated `{External} t p index :
  reachable t p → 0 ≤ index →
  (finalized p = false → getClearTally index p = Revert TallyNotFinalized)
  ∧ (finalized p = true → index < optionCount p →
     ∃ c, _clearTallies p !! Z.to_nat index = Some c ∧ getClearTally index p = Ok c)
  ∧ (finalized p = true → optionCount p ≤ index →
     getClearTally index p = Revert (InvalidOptionIndex index)).
Proof.
  intros Hr Hi. apply reachable_Inv in Hr as HI.
  pose proof (inv_len_clear _ _ HI) as Hlen. unfold optionCount.
  rewrite getClearTally_spec by done. repeat split.
  - by intros ->.
  - intros -> Hlt.
    destruct (lookup_lt_is_Some_2 (_clearTallies p) (Z.to_nat index)) as [c Hc]; [lia|].
    exists c. by rewrite Hc.
  - intros -> Hge. by rewrite lookup_ge_None_2 by lia.
Qed.

Lemma getClearTally_gated_witness :
  getClearTally 5 poll_pending = Revert TallyNotFinalized
  ∧ (∃ c, _clearTallies poll_final !! Z.to_nat 0 = Some c ∧ getClearTally 0 poll_final = Ok c)
  ∧ getClearTally 2 poll_final = Revert (InvalidOptionIndex 2).
Proof.
  pose proof (getClearTally_gated 5000 poll_pending 5 reachable_poll_pending ltac:(done)) as G1.
  pose proof (getClearTally_gated 5001 poll_final 0 reachable_poll_final ltac:(done)) as G2.
  pose proof (getClearTally_gated 5001 poll_final 2 reachable_poll_final ltac:(done)) as G3.
  split; [apply G1; reflexivity|].
  split; [apply G2; [reflexivity | vm_compute; reflexivity]|].
  apply G3; [reflexivity | vm_compute; discriminate].
Defined.

Lemma read_all {A} (f : Z → result A) (l : list A) (n : nat) :
  n = length l →
  (∀ i x, l !! i = Some x → f (Z.of_nat i) = Ok x) →
  (λ i, f (Z.of_nat i)) <$> seq 0 n = Ok <$> l.
Proof.
  intros -> Hf. apply list_eq. intros i. rewrite !list_lookup_fmap.
  destruct (l !! i) as [x|] eqn:Hx.
  - rewrite lookup_seq_lt by by eapply lookup_lt_Some. simpl. by rewrite (Hf i x).
  - apply lookup_ge_None in Hx. by rewrite lookup_seq_ge.
Qed.

(** X3: in every reachable state the loop of the [poll:info] task, which
    calls [getOption i] and [getEncryptedTally i] for every [i] below
    [optionCount], never meets a revert: it reads exactly the stored
    options and the stored tally handles, in order. *)
Theorem info_loop_reads_everything `{External} t p :
  reachable t p →
  read_options p = Ok <$> _options p ∧
  read_encrypted_tallies p = Ok <$> _encryptedTallies p.
Proof.
  intros Hr. apply reachable_Inv in Hr as HI.
  pose proof (inv_len_enc _ _ HI) as Hlen.
  unfold read_options, read_encrypted_tallies, optionCount. rewrite Nat2Z.id. split.
  - apply (read_all (λ i, getOption i p)); [done|]. intros i o Ho.
    rewrite getOption_spec by lia. by rewrite Nat2Z.id, Ho.
  - apply (read_all (λ i, getEncryptedTally i p)); [done|]. intros i c Hc.
    rewrite getEncryptedTally_spec by lia. by rewrite Nat2Z.id, Hc.
Qed.

Lemma info_loop_reads_everything_witness :
  read_options poll_final = Ok <$> _options poll_final ∧
  read_encrypted_tallies poll_final = Ok <$> _encryptedTallies poll_final.
Proof. exact (info_loop_reads_everything 5001 poll_final reachable_poll_final). Defined.

(** X4: what a successful deployment leaves in storage.  The option count
    is the number of labels and option [i] pairs label [i] with description
    [i]; there is one encrypted tally per option, each an encryption of 0
    that the deployer alone may decrypt, and one clear tally 0 per option;
    nobody has voted, nothing is pending or finalized, no event is logged;
    the window opens at the deployment block and lasts the given
    duration. *)
Theorem constructor_initial_state e name headline desc labels descs duration p :
  constructor e name headline desc labels descs duration = Ok p →
  optionCount p = Z.of_nat (length labels) ∧
  read_options p = Ok <$> zip_with mk_Option labels descs ∧
  _encryptedTallies p
  = replicate (length labels) (FHE.mk_euint32 0 {[msg_sender e]}) ∧
  _clearTallies p = replicate (length labels) 0 ∧
  voterCount p = 0 ∧ (∀ a, hasVoted_at p a = false) ∧
  finalized p = false ∧ decryptionPending p = false ∧ events p = [] ∧
  creator p = msg_sender e ∧
  startTime p = block_timestamp e ∧ endTime p = block_timestamp e + duration ∧
  pollName p = name ∧ pollHeadline p = headline ∧ pollDescription p = desc.
Proof.
  intros Hc. apply constructor_Ok in Hc as (Hn & Hlen & _ & _ & ->).
  assert (length (zip_with mk_Option labels descs) = length labels) as Hz.
  { rewrite length_zip_with. lia. }
  split; [unfold optionCount; simpl; by rewrite Hz|].
  split.
  { unfold read_options, optionCount. simpl. rewrite Nat2Z.id.
    apply (read_all (λ i, getOption i _)); [done|]. intros i o Ho.
    rewrite getOption_spec by lia. simpl. by rewrite Nat2Z.id, Ho. }
  split.
  { simpl. f_equal. unfold fresh_tally, FHE.allow, FHE.asEuint32. simpl.
    rewrite uint32_small by done. f_equal. apply (right_id_L ∅ (∪)). }
  split; [done|]. split; [done|]. split; [|done].
  intros a. unfold hasVoted_at. simpl. by rewrite lookup_empty.
Qed.

Lemma constructor_initial_state_witness :
  optionCount Demo.poll0 = Z.of_nat (length ["X"; "Y"]%string) ∧
  read_options Demo.poll0
  = Ok <$> zip_with mk_Option ["X"; "Y"]%string ["x"; "y"]%string ∧
  _encryptedTallies Demo.poll0
  = replicate (length ["X"; "Y"]%string) (FHE.mk_euint32 0 {[Demo.deployer]}) ∧
  _clearTallies Demo.poll0 = replicate (length ["X"; "Y"]%string) 0 ∧
  voterCount Demo.poll0 = 0 ∧ (∀ a, hasVoted_at Demo.poll0 a = false) ∧
  finalized Demo.poll0 = false ∧ decryptionPending Demo.poll0 = false ∧
  events Demo.poll0 = [] ∧ creator Demo.poll0 = Demo.deployer ∧
  startTime Demo.poll0 = 1000 ∧ endTime Demo.poll0 = 1000 + 3600 ∧
  pollName Demo.poll0 = "P"%string ∧ pollHeadline Demo.poll0 = "H"%string ∧
  pollDescription Demo.poll0 = "D"%string.
Proof.
  exact (constructor_initial_state (Demo.at_time 1000 Demo.deployer) "P" "H" "D"
           ["X"; "Y"]%string ["x"; "y"]%string 3600 Demo.poll0 deploy_poll0).
Defined.

(** X5: an accepted [decryptionCallback] publishes exactly what the payload
    decodes to.  In a reachable state, after the call [getClearTally i]
    returns the [i]-th decoded value for every option, the decoded list has
    one entry per option, one [TallyFinalized] event carrying that list is
    appended to the log, the call returns [true], and the encrypted
    tallies, the voter count and the ballot ledger are unchanged. *)
Theorem callback_publishes_payload `{External} t p e rid clear sigs p' b :
  reachable t p →
  decryptionCallback e rid clear sigs p = Ok (p', b) →
  ∃ l, abi_decode clear = Some l ∧
       read_clear_tallies p' = Ok <$> l ∧
       Z.of_nat (length l) = optionCount p' ∧
       events p' = events p ++ [TallyFinalized l] ∧ b = true ∧
       _encryptedTallies p' = _encryptedTallies p ∧
       voterCount p' = voterCount p ∧ hasVoted p' = hasVoted p.
Proof.
  intros Hr Hok. apply reachable_Inv in Hr as HI.
  apply decryptionCallback_Ok in Hok as (_ & _ & _ & -> & l & Hd & Hl & ->).
  pose proof (inv_len_clear _ _ HI) as Hlen.
  exists l. repeat split; try done.
  - apply read_clear_tallies_final; [done|]. simpl. lia.
  - unfold optionCount. simpl. lia.
Qed.

Lemma callback_publishes_payload_witness :
  ∃ l, abi_decode payload_1_0 = Some l ∧
       read_clear_tallies poll_final = Ok <$> l ∧
       Z.of_nat (length l) = optionCount poll_final ∧
       events poll_final = events poll_pending ++ [TallyFinalized l] ∧ true = true ∧
       _encryptedTallies poll_final = _encryptedTallies poll_pending ∧
       voterCount poll_final = voterCount poll_pending ∧
       hasVoted poll_final = hasVoted poll_pending.
Proof.
  apply (callback_publishes_payload 5000 poll_pending (Demo.at_time 5001 Demo.carol)
           7 payload_1_0 some_signature poll_final true reachable_poll_pending).
  reflexivity.
Defined.

(** ** The window helper and the two gates *)

(** X6: in a reachable state, at a block no earlier than the last one,
    [isVotingOpen] says exactly whether the window guard of
    [submitEncryptedVote] lets a ballot through; its [!finalized] conjunct
    never decides anything, because a finalized poll is past [endTime].
    While it is true a decryption request fails with [VotingStillOpen];
    while it is false every ballot fails with [VotingClosed]. *)
Theorem isVotingOpen_agrees_with_gates `{External} t p e :
  reachable t p → t ≤ block_timestamp e →
  isVotingOpen e p = bool_decide (block_timestamp e ≤ endTime p)
  ∧ (isVotingOpen e p = true →
     requestEncryptedTallyDecryption e p = Revert VotingStillOpen ∧
     ∀ enc prf, submitEncryptedVote e enc prf p ≠ Revert VotingClosed)
  ∧ (isVotingOpen e p = false →
     ∀ enc prf, submitEncryptedVote e enc prf p = Revert VotingClosed).
Proof.
  intros Hr Hle. apply reachable_Inv in Hr as HI.
  pose proof (inv_start _ _ HI) as Hs.
  assert (isVotingOpen e p = bool_decide (block_timestamp e ≤ endTime p)) as Hopen.
  { unfold isVotingOpen.
    destruct (decide (block_timestamp e ≤ endTime p)) as [Hin|Hout].
    - rewrite (bool_decide_eq_true_2 _ Hin).
      destruct (finalized p) eqn:Hf.
      { destruct (inv_final _ _ HI Hf). lia. }
      assert ((startTime p <? block_timestamp e) || (block_timestamp e =? startTime p)
              = true) as ->.
      { destruct (decide (block_timestamp e = startTime p)) as [->|].
        - rewrite Z.eqb_refl. apply orb_true_r.
        - rewrite (proj2 (Z.ltb_lt _ _)) by lia. done. }
      assert ((block_timestamp e <? endTime p) || (block_timestamp e =? endTime p)
              = true) as ->; [|done].
      destruct (decide (block_timestamp e = endTime p)) as [->|].
      + rewrite Z.eqb_refl. apply orb_true_r.
      + rewrite (proj2 (Z.ltb_lt _ _)) by lia. done.
    - rewrite (bool_decide_eq_false_2 _ Hout).
      rewrite (proj2 (Z.ltb_ge (block_timestamp e) (endTime p))),
        (proj2 (Z.eqb_neq (block_timestamp e) (endTime p))) by lia.
      simpl. by rewrite andb_false_r. }
  split; [exact Hopen|]. rewrite Hopen. split.
  - intros Hin. apply bool_decide_eq_true_1 in Hin. split.
    + unfold requestEncryptedTallyDecryption.
      destruct (block_timestamp e =? endTime p) eqn:He; [done|].
      apply Z.eqb_neq in He. by rewrite (proj2 (Z.ltb_lt _ _)) by lia.
    + intros enc prf. unfold submitEncryptedVote.
      rewrite (proj2 (Z.ltb_ge _ _)), (proj2 (Z.ltb_ge _ _)) by lia. simpl.
      destruct (hasVoted_at p (msg_sender e)); [done|].
      destruct (fromExternal enc prf (msg_sender e)); [|done].
      by destruct (MAX_UINT256 <=? voterCount p + 1).
  - intros Hout enc prf. apply bool_decide_eq_false_1 in Hout.
    unfold submitEncryptedVote.
    rewrite (proj2 (Z.ltb_lt (endTime p) _)) by lia. by rewrite orb_true_r.
Qed.

Lemma isVotingOpen_agrees_with_gates_witness :
  isVotingOpen (Demo.at_time 4600 Demo.bob) poll_after_alice
  = bool_decide (4600 ≤ endTime poll_after_alice)
  ∧ (requestEncryptedTallyDecryption (Demo.at_time 4600 Demo.bob) poll_after_alice
     = Revert VotingStillOpen ∧
     ∀ enc prf, submitEncryptedVote (Demo.at_time 4600 Demo.bob) enc prf poll_after_alice
                ≠ Revert VotingClosed)
  ∧ (∀ enc prf, submitEncryptedVote (Demo.at_time 4601 Demo.bob) enc prf poll_after_alice
                = Revert VotingClosed).
Proof.
  pose proof (isVotingOpen_agrees_with_gates 1001 poll_after_alice
                (Demo.at_time 4600 Demo.bob) reachable_poll_after_alice) as G1.
  pose proof (isVotingOpen_agrees_with_gates 1001 poll_after_alice
                (Demo.at_time 4601 Demo.bob) reachable_poll_after_alice) as G2.
  split; [apply G1; vm_compute; discriminate|].
  split; [apply G1; [vm_compute; discriminate | reflexivity]|].
  apply G2; [vm_compute; discriminate | reflexivity].
Defined.

(** ** Decrypt permissions *)

Lemma acl_updated_tally `{External} e p choice c i :
  FHE.acl (updated_tally e p choice c i) = {[creator p; msg_sender e; this]}.
Proof.
  unfold updated_tally, FHE.allow, FHE.add. simpl.
  by rewrite (right_id_L ∅ (∪)), (assoc_L (∪)).
Qed.

(** X7: who may decrypt the tallies.  In every reachable state the creator
    is permitted on every encrypted tally; and right after an accepted
    ballot the contract itself, the voter and the creator are all permitted
    on every tally, not only on the one the ballot was for. *)
Theorem tally_permissions `{External} t p :
  reachable t p →
  Forall (λ c, creator p ∈ FHE.acl c) (_encryptedTallies p)
  ∧ ∀ e enc prf p', submitEncryptedVote e enc prf p = Ok p' →
      Forall (λ c, this ∈ FHE.acl c ∧ msg_sender e ∈ FHE.acl c ∧ creator p' ∈ FHE.acl c)
        (_encryptedTallies p').
Proof.
  assert (∀ e enc prf q q', submitEncryptedVote e enc prf q = Ok q' →
            Forall (λ c, FHE.acl c = {[creator q'; msg_sender e; this]})
              (_encryptedTallies q')) as Hvote.
  { intros e enc prf q q' Hok.
    apply submitEncryptedVote_Ok in Hok as (_ & _ & _ & v & _ & ->). simpl.
    apply Forall_forall. intros c Hc. apply list_elem_of_lookup in Hc as [i Hi].
    unfold voted_tallies in Hi. rewrite list_lookup_imap in Hi.
    destruct (_encryptedTallies q !! i) as [c0|]; [|done].
    injection Hi as <-. apply acl_updated_tally. }
  assert (∀ a b c : address, c ∈ ({[a; b; c]} : gset address) ∧
            b ∈ ({[a; b; c]} : gset address) ∧ a ∈ ({[a; b; c]} : gset address)) as Hin.
  { intros a b c. rewrite !elem_of_union, !elem_of_singleton. auto. }
  intros Hr. split.
  2: { intros e enc prf p' Hok. eapply Forall_impl; [by eapply Hvote|].
       intros c ->. apply Hin. }
  induction Hr as [e name headline desc labels descs duration p He Hd Hc
                  | t p e tx _ IH He Hle].
  - apply constructor_Ok in Hc as (_ & _ & _ & _ & ->). simpl.
    apply Forall_replicate. unfold fresh_tally, FHE.allow. simpl.
    apply elem_of_union. left. by apply elem_of_singleton.
  - unfold step, exec. destruct tx as [enc prf| |rid clear sigs].
    + destruct (submitEncryptedVote e enc prf p) as [p'|err] eqn:Hx; [|done].
      eapply Forall_impl; [by eapply Hvote|]. intros c ->. apply Hin.
    + destruct (requestEncryptedTallyDecryption e p) as [[p' r]|err] eqn:Hx; [|done].
      by apply requestEncryptedTallyDecryption_Ok in Hx as (_ & _ & _ & _ & ->).
    + destruct (decryptionCallback e rid clear sigs p) as [[p' r]|err] eqn:Hx; [|done].
      by apply decryptionCallback_Ok in Hx as (_ & _ & _ & _ & l & _ & _ & ->).
Qed.

Lemma tally_permissions_witness :
  Forall (λ c, creator Demo.poll0 ∈ FHE.acl c) (_encryptedTallies Demo.poll0)
  ∧ ∀ e enc prf p', submitEncryptedVote e enc prf Demo.poll0 = Ok p' →
      Forall (λ c, this ∈ FHE.acl c ∧ msg_sender e ∈ FHE.acl c ∧ creator p' ∈ FHE.acl c)
        (_encryptedTallies p').
Proof. exact (tally_permissions 1000 Demo.poll0 reachable_poll0). Defined.

(** ** The ballot ledger and the event log *)

Lemma logged_voters_app evs evs' :
  logged_voters (evs ++ evs') = logged_voters evs ++ logged_voters evs'.
Proof. apply omap_app. Qed.

Lemma hasVoted_at_record_vote_iff p a a' :
  hasVoted_at (record_vote p a) a' = true ↔ a' = a ∨ hasVoted_at p a' = true.
Proof.
  unfold hasVoted_at. simpl. destruct (decide (a = a')) as [->|Hne].
  - rewrite lookup_insert_eq. simpl. tauto.
  - rewrite lookup_insert_ne by done. split; [tauto|]. intros [->|?]; done.
Qed.

Lemma reachable_scenario_A : reachable 5001 scenario_A_final.
Proof.
  apply (reachable_step 5000 _ (Demo.at_time 5001 Demo.deployer));
    [|apply valid_at_time; done|done].
  apply (reachable_step 1003 _ (Demo.at_time 5000 Demo.deployer));
    [|apply valid_at_time; done|done].
  apply (reachable_step 1002 _ (Demo.at_time 1003 Demo.carol));
    [|apply valid_at_time; done|done].
  apply (reachable_step 1001 _ (Demo.at_time 1002 Demo.bob));
    [|apply valid_at_time; done|done].
  apply (reachable_step 1000 _ (Demo.at_time 1001 Demo.alice));
    [|apply valid_at_time; done|done].
  exact reachable_poll0.
Qed.

(** X8: the event log and the ballot ledger tell the same story.  In every
    reachable state an address has [hasVoted] set exactly when a
    [VoteSubmitted] event names it, no address is named twice, and
    [voterCount] is the number of [VoteSubmitted] events. *)
Theorem vote_log_matches_ledger `{External} t p :
  reachable t p →
  (∀ a, hasVoted_at p a = true ↔ a ∈ logged_voters (events p)) ∧
  NoDup (logged_voters (events p)) ∧
  voterCount p = Z.of_nat (length (logged_voters (events p))).
Proof.
  induction 1 as [e name headline desc labels descs duration p He Hd Hc
                 | t p e tx _ (IHv & IHn & IHc) He Hle].
  - apply constructor_Ok in Hc as (_ & _ & _ & _ & ->). simpl.
    split; [|split; [constructor|done]].
    intros a. unfold hasVoted_at. simpl. rewrite lookup_empty. simpl.
    split; [done|]. by intros ?%elem_of_nil.
  - unfold step, exec. destruct tx as [enc prf| |rid clear sigs].
    + destruct (submitEncryptedVote e enc prf p) as [p'|err] eqn:Hx; [|done].
      apply submitEncryptedVote_Ok in Hx as (_ & Hnv & _ & v & _ & ->).
      cbn [events record_vote]. rewrite logged_voters_app. simpl.
      assert (msg_sender e ∉ logged_voters (events p)) as Hfresh.
      { intros Hin. apply IHv in Hin. cbn in Hin. congruence. }
      split; [|split].
      * intros a. rewrite hasVoted_at_record_vote_iff, elem_of_app, list_elem_of_singleton.
        cbn. rewrite <- IHv. tauto.
      * apply NoDup_app. split; [done|]. split; [|apply NoDup_singleton].
        intros a Ha ->%list_elem_of_singleton. done.
      * rewrite length_app. cbn in IHc |- *. lia.
    + destruct (requestEncryptedTallyDecryption e p) as [[p' r]|err] eqn:Hx; [|done].
      apply requestEncryptedTallyDecryption_Ok in Hx as (_ & _ & _ & _ & ->).
      cbn [events record_request]. rewrite logged_voters_app, app_nil_r. done.
    + destruct (decryptionCallback e rid clear sigs p) as [[p' r]|err] eqn:Hx; [|done].
      apply decryptionCallback_Ok in Hx as (_ & _ & _ & _ & l & _ & _ & ->).
      cbn [events record_final]. rewrite logged_voters_app, app_nil_r. done.
Qed.

Lemma vote_log_matches_ledger_witness :
  (∀ a, hasVoted_at scenario_A_final a = true ↔ a ∈ logged_voters (events scenario_A_final)) ∧
  NoDup (logged_voters (events scenario_A_final)) ∧
  voterCount scenario_A_final = Z.of_nat (length (logged_voters (events scenario_A_final))).
Proof. exact (vote_log_matches_ledger 5001 scenario_A_final reachable_scenario_A). Defined.

Lemma step_grows `{External} e tx p :
  (∀ a, hasVoted_at p a = true → hasVoted_at (step e tx p) a = true) ∧
  voterCount p ≤ voterCount (step e tx p) ∧
  events p `prefix_of` events (step e tx p).
Proof.
  unfold step, exec. destruct tx as [enc prf| |rid clear sigs].
  - destruct (submitEncryptedVote e enc prf p) as [p'|err] eqn:Hx; [|done].
    apply submitEncryptedVote_Ok in Hx as (_ & _ & _ & v & _ & ->).
    split; [|split; [simpl; lia|by apply prefix_app_r]].
    intros a Ha. apply hasVoted_at_record_vote_iff. by right.
  - destruct (requestEncryptedTallyDecryption e p) as [[p' r]|err] eqn:Hx; [|done].
    apply requestEncryptedTallyDecryption_Ok in Hx as (_ & _ & _ & _ & ->).
    split; [done|]. split; [done|by apply prefix_app_r].
  - destruct (decryptionCallback e rid clear sigs p) as [[p' r]|err] eqn:Hx; [|done].
    apply decryptionCallback_Ok in Hx as (_ & _ & _ & _ & l & _ & _ & ->).
    split; [done|]. split; [done|by apply prefix_app_r].
Qed.

(** X9: nothing is ever taken back.  Across any sequence of transactions,
    from any state, an address that has voted stays marked as having voted,
    [voterCount] never decreases, and the event log only grows at its
    end. *)
Theorem ledger_only_grows `{External} txs p :
  (∀ a, hasVoted_at p a = true → hasVoted_at (steps txs p) a = true) ∧
  voterCount p ≤ voterCount (steps txs p) ∧
  events p `prefix_of` events (steps txs p).
Proof.
  revert p. induction txs as [|[e tx] txs IH]; intros p; [done|].
  change (steps ((e, tx) :: txs) p) with (steps txs (step e tx p)).
  destruct (step_grows e tx p) as (Hv & Hc & He).
  destruct (IH (step e tx p)) as (Hv' & Hc' & He').
  split; [auto|]. split; [lia|]. by etrans.
Qed.

(** ** After the window *)

Lemma step_after_close `{External} e tx p :
  endTime p < block_timestamp e →
  _encryptedTallies (step e tx p) = _encryptedTallies p ∧
  voterCount (step e tx p) = voterCount p ∧
  hasVoted (step e tx p) = hasVoted p ∧
  endTime (step e tx p) = endTime p.
Proof.
  intros Hlate. unfold step, exec. destruct tx as [enc prf| |rid clear sigs].
  - destruct (submitEncryptedVote e enc prf p) as [p'|err] eqn:Hx; [|done].
    apply submitEncryptedVote_Ok in Hx as (Hw & _). lia.
  - destruct (requestEncryptedTallyDecryption e p) as [[p' r]|err] eqn:Hx; [|done].
    by apply requestEncryptedTallyDecryption_Ok in Hx as (_ & _ & _ & _ & ->).
  - destruct (decryptionCallback e rid clear sigs p) as [[p' r]|err] eqn:Hx; [|done].
    by apply decryptionCallback_Ok in Hx as (_ & _ & _ & _ & l & _ & _ & ->).
Qed.

(** X10: once the window has closed the ballot box is sealed.  Whatever
    transactions arrive in blocks stamped after [endTime], the encrypted
    tallies (handles and permissions included), [voterCount] and the
    [hasVoted] ledger stay exactly as they were, so the tallies the oracle
    is asked to decrypt are the final ones. *)
Theorem closed_poll_is_sealed `{External} txs p :
  Forall (λ et, endTime p < block_timestamp et.1) txs →
  _encryptedTallies (steps txs p) = _encryptedTallies p ∧
  voterCount (steps txs p) = voterCount p ∧
  hasVoted (steps txs p) = hasVoted p.
Proof.
  revert p. induction txs as [|[e tx] txs IH]; intros p Hall; [done|].
  apply Forall_cons in Hall as [Hlate Hall].
  change (steps ((e, tx) :: txs) p) with (steps txs (step e tx p)).
  destruct (step_after_close e tx p Hlate) as (Ht & Hc & Hv & Hend).
  destruct (IH (step e tx p)) as (Ht' & Hc' & Hv').
  { by rewrite Hend. }
  by rewrite Ht', Hc', Hv'.
Qed.

Lemma closed_poll_is_sealed_witness :
  _encryptedTallies
    (steps [(Demo.at_time 4601 Demo.bob, SubmitEncryptedVote 1 []);
            (Demo.at_time 5000 Demo.bob, RequestEncryptedTallyDecryption);
            (Demo.at_time 5001 Demo.carol, DecryptionCallback 7 payload_1_0 some_signature)]
       poll_after_alice) = _encryptedTallies poll_after_alice ∧
  voterCount
    (steps [(Demo.at_time 4601 Demo.bob, SubmitEncryptedVote 1 []);
            (Demo.at_time 5000 Demo.bob, RequestEncryptedTallyDecryption);
            (Demo.at_time 5001 Demo.carol, DecryptionCallback 7 payload_1_0 some_signature)]
       poll_after_alice) = voterCount poll_after_alice ∧
  hasVoted
    (steps [(Demo.at_time 4601 Demo.bob, SubmitEncryptedVote 1 []);
            (Demo.at_time 5000 Demo.bob, RequestEncryptedTallyDecryption);
            (Demo.at_time 5001 Demo.carol, DecryptionCallback 7 payload_1_0 some_signature)]
       poll_after_alice) = hasVoted poll_after_alice.
Proof.
  apply closed_poll_is_sealed.
  repeat apply Forall_cons_2; try apply Forall_nil_2; vm_compute; reflexivity.
Defined.

(** ** The decryption request *)

Lemma request_reverts_when_busy `{External} e p :
  decryptionPending p = true ∨ finalized p = true →
  ∃ err, requestEncryptedTallyDecryption e p = Revert err.
Proof.
  intros Hbusy. unfold requestEncryptedTallyDecryption.
  destruct ((block_timestamp e =? endTime p) || (block_timestamp e <? endTime p));
    [eauto|].
  destruct (finalized p); [eauto|]. destruct Hbusy as [->|?]; [eauto|done].
Qed.

Lemma busy_step `{External} e tx p :
  decryptionPending p = true ∨ finalized p = true →
  (decryptionPending (step e tx p) = true ∨ finalized (step e tx p) = true) ∧
  decryptionRequestId (step e tx p) = decryptionRequestId p.
Proof.
  intros Hbusy. destruct tx as [enc prf| |rid clear sigs].
  - destruct (step_vote_fields e enc prf p) as (-> & -> & _ & ->). done.
  - unfold step, exec. by destruct (request_reverts_when_busy e p Hbusy) as [err ->].
  - unfold step, exec.
    destruct (decryptionCallback e rid clear sigs p) as [[p' r]|err] eqn:Hx; [|done].
    apply decryptionCallback_Ok in Hx as (_ & _ & _ & _ & l & _ & _ & ->).
    split; [by right|done].
Qed.

(** X11: a poll asks the oracle at most once.  After one successful
    [requestEncryptedTallyDecryption], whatever transactions follow, every
    further request reverts and the recorded [decryptionRequestId] stays
    the id that request returned. *)
Theorem request_succeeds_at_most_once `{External} e p p1 rid :
  requestEncryptedTallyDecryption e p = Ok (p1, rid) →
  ∀ txs e',
    (∃ err, requestEncryptedTallyDecryption e' (steps txs p1) = Revert err) ∧
    decryptionRequestId (steps txs p1) = rid.
Proof.
  intros Hok txs e'.
  apply requestEncryptedTallyDecryption_Ok in Hok as (_ & _ & _ & _ & ->).
  assert (∀ q, decryptionPending q = true ∨ finalized q = true →
            (decryptionPending (steps txs q) = true ∨ finalized (steps txs q) = true) ∧
            decryptionRequestId (steps txs q) = decryptionRequestId q) as Hbusy.
  { induction txs as [|[e1 tx] txs IH]; intros q Hq; [done|].
    change (steps ((e1, tx) :: txs) q) with (steps txs (step e1 tx q)).
    destruct (busy_step e1 tx q Hq) as [Hq' Hid].
    destruct (IH _ Hq') as [Hq'' Hid']. split; [done|congruence]. }
  destruct (Hbusy (record_request p rid)) as [Hb Hid]; [by left|].
  split; [by apply request_reverts_when_busy|exact Hid].
Qed.

Lemma request_succeeds_at_most_once_witness :
  (∃ err, requestEncryptedTallyDecryption (Demo.at_time 6000 Demo.alice)
            (steps [(Demo.at_time 5001 Demo.carol,
                     DecryptionCallback 7 payload_1_0 some_signature)] poll_pending)
          = Revert err) ∧
  decryptionRequestId
    (steps [(Demo.at_time 5001 Demo.carol,
             DecryptionCallback 7 payload_1_0 some_signature)] poll_pending) = 7.
Proof.
  apply (request_succeeds_at_most_once (Demo.at_time 5000 Demo.bob) poll_after_alice
           poll_pending 7).
  reflexivity.
Defined.

(** X12: a poll that waits for the oracle can only be moved by the oracle's
    answer.  In a reachable state with a request pending, a transaction in
    a later block changes the storage only if it is a [decryptionCallback]
    carrying the recorded request id, and then the poll is finalized;
    ballots, further requests and callbacks with another id leave every
    field as it was. *)
Theorem pending_moves_only_by_matching_callback `{External} t p e tx :
  reachable t p → decryptionPending p = true → t ≤ block_timestamp e →
  step e tx p ≠ p →
  finalized (step e tx p) = true ∧
  ∃ clear sigs, tx = DecryptionCallback (decryptionRequestId p) clear sigs.
Proof.
  intros Hr Hp Hle Hmoved. apply reachable_Inv in Hr as HI.
  destruct (inv_pending _ _ HI Hp) as [Hf Hend].
  unfold step, exec in *. destruct tx as [enc prf| |rid clear sigs].
  - destruct (submitEncryptedVote e enc prf p) as [p'|err] eqn:Hx; [|done].
    apply submitEncryptedVote_Ok in Hx as (Hw & _). lia.
  - destruct (request_reverts_when_busy e p (or_introl Hp)) as [err Herr].
    rewrite Herr in Hmoved. done.
  - destruct (decryptionCallback e rid clear sigs p) as [[p' r]|err] eqn:Hx; [|done].
    apply decryptionCallback_Ok in Hx as (_ & -> & _ & _ & l & _ & _ & ->).
    split; [done|eauto].
Qed.

Lemma pending_moves_only_by_matching_callback_witness :
  finalized (step (Demo.at_time 5001 Demo.carol)
               (DecryptionCallback 7 payload_1_0 some_signature) poll_pending) = true ∧
  ∃ clear sigs,
    DecryptionCallback 7 payload_1_0 some_signature
    = DecryptionCallback (decryptionRequestId poll_pending) clear sigs.
Proof.
  apply (pending_moves_only_by_matching_callback 5000 poll_pending
           (Demo.at_time 5001 Demo.carol)).
  - exact reachable_poll_pending.
  - reflexivity.
  - vm_compute. discriminate.
  - vm_compute. discriminate.
Defined.

(** ** Arithmetic of the tallies *)

Lemma vote_sum_le `{External} e p v who :
  tallies_wf p → optionCount p ≤ MAX_UINT32 → 0 ≤ v →
  sumZ (plains (record_vote (set_tallies p (voted_tallies e p v)) who))
  ≤ sumZ (plains p) + 1.
Proof.
  intros Hwf HN Hv. destruct (decide (v < optionCount p)) as [Hlt|Hge].
  - destruct (lookup_lt_is_Some_2 (plains p) (Z.to_nat v)) as [x Hx].
    { pose proof (length_plains _ Hwf). lia. }
    rewrite (plains_voted_in_range _ _ _ _ x), (sumZ_insert _ _ x) by done.
    pose proof (plains_range _ _ _ Hwf Hx).
    pose proof (Z.mod_le (x + 1) MAX_UINT32 ltac:(lia) MAX_UINT32_pos). lia.
  - rewrite plains_voted_out_of_range by (try done; lia). lia.
Qed.

(** X13: votes are never invented.  In every reachable state of a poll with
    at most 2^32 options, the plaintexts of the encrypted tallies add up to
    no more than [voterCount], so no single tally exceeds the number of
    accepted ballots. *)
Theorem tallies_bounded_by_voterCount `{External} t p :
  reachable t p → optionCount p ≤ MAX_UINT32 →
  sumZ (plains p) ≤ voterCount p ∧
  Forall (λ x, 0 ≤ x ≤ voterCount p) (plains p).
Proof.
  intros Hr HN.
  assert (sumZ (plains p) ≤ voterCount p) as Hsum.
  { induction Hr as [e name headline desc labels descs duration p He Hd Hc
                    | t p e tx Hr IH He Hle].
    - apply constructor_Ok in Hc as (_ & _ & _ & _ & ->).
      unfold plains. simpl. rewrite fmap_replicate. simpl.
      rewrite uint32_small by done. by rewrite sumZ_replicate_0.
    - pose proof (Inv_tallies_wf _ _ (reachable_Inv _ _ Hr)) as Hwf.
      destruct (step_keeps_metadata e tx p) as (_ & _ & Hopts & _).
      unfold optionCount in HN, IH. rewrite Hopts in HN. specialize (IH HN).
      unfold step, exec. destruct tx as [enc prf| |rid clear sigs].
      + destruct (submitEncryptedVote e enc prf p) as [p'|err] eqn:Hx; [|done].
        apply submitEncryptedVote_Ok in Hx as (_ & _ & _ & v & Hv & ->).
        pose proof (fromExternal_range _ _ _ _ Hv) as Hrange.
        pose proof (vote_sum_le e p v (msg_sender e) Hwf HN ltac:(lia)).
        change (voterCount (record_vote _ _)) with (voterCount p + 1). lia.
      + destruct (requestEncryptedTallyDecryption e p) as [[p' r]|err] eqn:Hx; [|done].
        by apply requestEncryptedTallyDecryption_Ok in Hx as (_ & _ & _ & _ & ->).
      + destruct (decryptionCallback e rid clear sigs p) as [[p' r]|err] eqn:Hx; [|done].
        by apply decryptionCallback_Ok in Hx as (_ & _ & _ & _ & l & _ & _ & ->). }
  split; [done|].
  pose proof (Inv_tallies_wf _ _ (reachable_Inv _ _ Hr)) as Hwf.
  apply Forall_forall. intros x Hx. apply list_elem_of_lookup in Hx as [i Hi].
  pose proof (plains_range _ _ _ Hwf Hi).
  pose proof (sumZ_lookup_le _ _ _ (plains_nonneg _ Hwf) Hi). lia.
Qed.

Lemma tallies_bounded_by_voterCount_witness :
  sumZ (plains scenario_A_final) ≤ voterCount scenario_A_final ∧
  Forall (λ x, 0 ≤ x ≤ voterCount scenario_A_final) (plains scenario_A_final).
Proof.
  apply (tallies_bounded_by_voterCount 5001 scenario_A_final reachable_scenario_A).
  vm_compute. discriminate.
Defined.

(** X14: the order of two ballots does not matter for the count.  If two
    ballots are accepted one after the other, they are also accepted in the
    opposite order, and both orders leave the same tally plaintexts, the
    same [hasVoted] ledger and the same [voterCount]. *)
Theorem ballots_commute `{External} e1 enc1 prf1 e2 enc2 prf2 p q1 r1 :
  submitEncryptedVote e1 enc1 prf1 p = Ok q1 →
  submitEncryptedVote e2 enc2 prf2 q1 = Ok r1 →
  ∃ q2 r2,
    submitEncryptedVote e2 enc2 prf2 p = Ok q2 ∧
    submitEncryptedVote e1 enc1 prf1 q2 = Ok r2 ∧
    plains r2 = plains r1 ∧ hasVoted r2 = hasVoted r1 ∧ voterCount r2 = voterCount r1.
Proof.
  intros H1 H2.
  apply submitEncryptedVote_Ok in H1 as (Hw1 & Hn1 & Hc1 & v1 & Hv1 & ->).
  apply submitEncryptedVote_Ok in H2 as (Hw2 & Hn2 & Hc2 & v2 & Hv2 & ->).
  cbn [startTime endTime voterCount record_vote set_tallies set_options] in Hw2, Hc2.
  assert (msg_sender e1 ≠ msg_sender e2) as Hne.
  { intros Heq. rewrite <- Heq, hasVoted_at_record_vote in Hn2. done. }
  rewrite hasVoted_at_record_vote_ne in Hn2 by done.
  eexists _, _.
  split; [apply (submitEncryptedVote_succeeds _ _ _ _ v2); try done; lia|].
  split.
  { apply (submitEncryptedVote_succeeds _ _ _ _ v1).
    - exact Hw1.
    - by rewrite hasVoted_at_record_vote_ne.
    - exact Hv1.
    - cbn. lia. }
  split; [|split; [cbn; by apply insert_insert_ne|cbn; lia]].
  rewrite !plains_voted. apply list_eq. intros j. rewrite !list_lookup_imap.
  destruct (plains p !! j) as [x|]; [|done]. simpl. f_equal.
  rewrite !Z.add_mod_idemp_l by done. f_equal. lia.
Qed.

Lemma ballots_commute_witness :
  ∃ q2 r2,
    submitEncryptedVote (Demo.at_time 1002 Demo.bob) 1 [] Demo.poll0 = Ok q2 ∧
    submitEncryptedVote (Demo.at_time 1001 Demo.alice) 0 [] q2 = Ok r2 ∧
    plains r2 = plains (step (Demo.at_time 1002 Demo.bob) (SubmitEncryptedVote 1 [])
                          poll_after_alice) ∧
    hasVoted r2 = hasVoted (step (Demo.at_time 1002 Demo.bob) (SubmitEncryptedVote 1 [])
                              poll_after_alice) ∧
    voterCount r2 = voterCount (step (Demo.at_time 1002 Demo.bob) (SubmitEncryptedVote 1 [])
                                  poll_after_alice).
Proof.
  apply (ballots_commute (Demo.at_time 1001 Demo.alice) 0 [] (Demo.at_time 1002 Demo.bob) 1 []
           Demo.poll0 poll_after_alice).
  - reflexivity.
  - reflexivity.
Defined.


(** ** Callers *)

(** X15: the [poll:vote] task never casts a ballot the contract would
    silently drop.  It refuses an argument that is not a non-negative
    integer and an index at or beyond [optionCount] without sending
    anything; and whenever its transaction is accepted (the client-side
    encryption being correct, in a reachable poll of at most 2^32 options)
    the index is below [optionCount] and exactly that counter is raised by
    one, modulo 2^32. *)
Theorem poll_vote_in_range `{External} encrypt t p e parsed :
  (∀ who i, 0 ≤ i < MAX_UINT32 →
     fromExternal (encrypt this who i).1 (encrypt this who i).2 who = Some i) →
  reachable t p → optionCount p ≤ MAX_UINT32 →
  (∀ i, parsed = Some i → i < 0 → poll_vote encrypt parsed e p = NotAnIndex)
  ∧ (∀ i, parsed = Some i → optionCount p ≤ i →
       poll_vote encrypt parsed e p = OutOfBounds (optionCount p))
  ∧ (∀ p', poll_vote encrypt parsed e p = Sent (Ok p') →
       ∃ i x, parsed = Some i ∧ 0 ≤ i < optionCount p ∧
              plains p !! Z.to_nat i = Some x ∧
              plains p' = <[Z.to_nat i := (x + 1) mod MAX_UINT32]> (plains p)).
Proof.
  intros Henc Hr HN. apply reachable_Inv in Hr as HI.
  pose proof (Inv_tallies_wf _ _ HI) as Hwf.
  pose proof (inv_opts _ _ HI) as Hopts. unfold poll_vote. split; [|split].
  - intros i -> Hi. by rewrite (proj2 (Z.ltb_lt _ _) Hi).
  - intros i -> Hi. unfold optionCount in *.
    rewrite (proj2 (Z.ltb_ge _ _)), (proj2 (Z.leb_le _ _)) by lia. done.
  - intros p' Hsent. destruct parsed as [i|]; [|done].
    destruct (i <? 0) eqn:H0; [done|]. destruct (optionCount p <=? i) eqn:H1; [done|].
    apply Z.ltb_ge in H0. apply Z.leb_gt in H1. injection Hsent as Hok.
    apply submitEncryptedVote_Ok in Hok as (_ & _ & _ & v & Hv & ->).
    rewrite Henc in Hv by lia. injection Hv as <-.
    destruct (lookup_lt_is_Some_2 (plains p) (Z.to_nat i)) as [x Hx].
    { pose proof (length_plains _ Hwf). lia. }
    exists i, x. repeat split; try done. by apply plains_voted_in_range.
Qed.

Lemma poll_vote_in_range_witness :
  poll_vote (λ _ _ i, (i, [])) (Some (-1)) (Demo.at_time 1001 Demo.alice) Demo.poll0
  = NotAnIndex
  ∧ poll_vote (λ _ _ i, (i, [])) (Some 2) (Demo.at_time 1001 Demo.alice) Demo.poll0
    = OutOfBounds (optionCount Demo.poll0)
  ∧ ∃ i x, Some 0 = Some i ∧ 0 ≤ i < optionCount Demo.poll0 ∧
           plains Demo.poll0 !! Z.to_nat i = Some x ∧
           plains poll_after_alice = <[Z.to_nat i := (x + 1) mod MAX_UINT32]> (plains Demo.poll0).
Proof.
  assert (∀ who i, 0 ≤ i < MAX_UINT32 →
            fromExternal ((λ _ _ i, (i, [])) this who i : externalEuint32 * bytes).1
              ((λ _ _ i, (i, [])) this who i : externalEuint32 * bytes).2 who = Some i) as Henc.
  { intros who i Hi. cbn. unfold Demo.mock_fromExternal.
    by rewrite (proj2 (Z.leb_le _ _)), (proj2 (Z.ltb_lt _ _)) by lia. }
  pose proof (λ parsed, poll_vote_in_range (λ _ _ i, (i, [])) 1000 Demo.poll0
                (Demo.at_time 1001 Demo.alice) parsed Henc reachable_poll0
                ltac:(vm_compute; discriminate)) as V.
  split; [apply (proj1 (V (Some (-1))) (-1)); done|].
  split; [apply (proj1 (proj2 (V (Some 2))) 2); [done | vm_compute; discriminate]|].
  apply (proj2 (proj2 (V (Some 0))) poll_after_alice). reflexivity.
Defined.

Lemma refresh_prefix `{External} t p (k : nat) :
  reachable t p → (k ≤ length (_options p))%nat →
  ∃ cr, foldl (refresh_body p) (Ok ([], ∅)) (seq 0 k) = Ok (take k (option_states p), cr) ∧
        ∀ z, cr !! z = if finalized p && bool_decide (0 ≤ z < Z.of_nat k)
                       then _clearTallies p !! Z.to_nat z else None.
Proof.
  intros Hr. apply reachable_Inv in Hr as HI.
  pose proof (inv_len_enc _ _ HI) as Hlen. pose proof (inv_len_clear _ _ HI) as Hlenc.
  induction k as [|k IH]; intros Hk.
  - exists ∅. split; [done|]. intros z. rewrite lookup_empty.
    rewrite bool_decide_eq_false_2 by lia. by rewrite andb_false_r.
  - destruct IH as (cr & Hfold & Hcr); [lia|].
    rewrite seq_S, foldl_app, Hfold. simpl. unfold refresh_body.
    destruct (lookup_lt_is_Some_2 (_options p) k) as [o Ho]; [lia|].
    destruct (lookup_lt_is_Some_2 (_encryptedTallies p) k) as [c Hc]; [lia|].
    destruct (lookup_lt_is_Some_2 (_clearTallies p) k) as [x Hx]; [lia|].
    rewrite getOption_spec, getEncryptedTally_spec, getClearTally_spec by lia.
    rewrite Nat2Z.id, Ho, Hc, Hx.
    assert (option_states p !! k
            = Some (mk_OptionState (Z.of_nat k) (label o) (description o) c)) as Hos.
    { unfold option_states. rewrite list_lookup_imap.
      by rewrite (proj2 (lookup_zip_Some _ _ k o c) (conj Ho Hc)). }
    rewrite (take_S_r _ _ _ Hos).
    destruct (finalized p) eqn:Hf.
    + eexists. split; [done|]. intros z. rewrite lookup_insert. case_decide as Hz.
      * subst z. rewrite bool_decide_eq_true_2 by lia. by rewrite Nat2Z.id, Hx.
      * rewrite Hcr. simpl.
        destruct (decide (0 ≤ z < Z.of_nat k)) as [Hin|Hout].
        -- by rewrite !bool_decide_eq_true_2 by lia.
        -- by rewrite !bool_decide_eq_false_2 by lia.
    + exists cr. split; [done|]. intros z. by rewrite Hcr.
Qed.

(** X16: the front end's refresh loop never falls into its error branch on
    a reachable poll read as one snapshot.  It collects one entry per
    option, carrying the option's index, label, description and tally
    handle, and the clear results hold exactly the stored clear tallies
    when the poll is finalized and nothing otherwise: it asks for a clear
    tally only when the contract would give one. *)
Theorem refresh_never_fails `{External} t p :
  reachable t p →
  ∃ clearResults,
    refresh p = Ok (option_states p, clearResults) ∧
    Z.of_nat (length (option_states p)) = optionCount p ∧
    ∀ i : nat, clearResults !! Z.of_nat i
               = if finalized p then _clearTallies p !! i else None.
Proof.
  intros Hr. pose proof (reachable_Inv _ _ Hr) as HI.
  pose proof (inv_len_enc _ _ HI) as Hlen. pose proof (inv_len_clear _ _ HI) as Hlenc.
  assert (length (option_states p) = length (_options p)) as Hlos.
  { unfold option_states. rewrite length_imap, length_zip_with. lia. }
  destruct (refresh_prefix t p (length (_options p)) Hr) as (cr & Hfold & Hcr); [done|].
  exists cr. unfold refresh, optionCount. rewrite Nat2Z.id, Hfold.
  rewrite firstn_all2 by lia. split; [done|]. split; [by rewrite Hlos|].
  intros i. rewrite Hcr, Nat2Z.id. destruct (finalized p); [|done]. simpl.
  case_bool_decide as Hi; [done|]. symmetry. apply lookup_ge_None_2. lia.
Qed.

Lemma refresh_never_fails_witness :
  ∃ clearResults,
    refresh poll_final = Ok (option_states poll_final, clearResults) ∧
    Z.of_nat (length (option_states poll_final)) = optionCount poll_final ∧
    ∀ i : nat, clearResults !! Z.of_nat i
               = if finalized poll_final then _clearTallies poll_final !! i else None.
Proof. exact (refresh_never_fails 5001 poll_final reachable_poll_final). Defined.


(** ** The log of the reveal protocol *)

(** X17: the log records the reveal protocol faithfully.  In every
    reachable state there is one [TallyDecryptionRequested] event, carrying
    the recorded request id, exactly when a request is pending or the poll
    is finalized, and none before; and there is one [TallyFinalized] event,
    carrying the stored clear tallies, exactly when the poll is finalized,
    and none before.  Neither event is ever emitted twice. *)
Theorem reveal_log_matches_state `{External} t p :
  reachable t p →
  logged_requests (events p)
  = (if decryptionPending p || finalized p then [decryptionRequestId p] else []) ∧
  logged_finalizations (events p)
  = (if finalized p then [_clearTallies p] else []).
Proof.
  intros Hr.
  induction Hr as [e name headline desc labels descs duration p He Hd Hc
                  | t p e tx Hr [IHr IHf] He Hle].
  - by apply constructor_Ok in Hc as (_ & _ & _ & _ & ->).
  - apply reachable_Inv in Hr as HI.
    unfold step, exec. destruct tx as [enc prf| |rid clear sigs].
    + destruct (submitEncryptedVote e enc prf p) as [p'|err] eqn:Hx; [|done].
      apply submitEncryptedVote_Ok in Hx as (_ & _ & _ & v & _ & ->).
      unfold logged_requests, logged_finalizations in *.
      cbn [events record_vote set_tallies set_options finalized decryptionPending
           decryptionRequestId _clearTallies].
      rewrite !omap_app, IHr, IHf. simpl. by rewrite !app_nil_r.
    + destruct (requestEncryptedTallyDecryption e p) as [[p' r]|err] eqn:Hx; [|done].
      apply requestEncryptedTallyDecryption_Ok in Hx as (_ & Hf & Hp & -> & ->).
      unfold logged_requests, logged_finalizations in *.
      cbn [events record_request finalized decryptionPending decryptionRequestId
           _clearTallies].
      rewrite !omap_app, IHr, IHf, Hf, Hp. done.
    + destruct (decryptionCallback e rid clear sigs p) as [[p' r]|err] eqn:Hx; [|done].
      apply decryptionCallback_Ok in Hx as (Hp & -> & _ & _ & l & _ & _ & ->).
      destruct (inv_pending _ _ HI Hp) as [Hf _].
      unfold logged_requests, logged_finalizations in *.
      cbn [events record_final finalized decryptionPending decryptionRequestId
           _clearTallies].
      rewrite !omap_app, IHr, IHf, Hf, Hp. done.
Qed.

Lemma reveal_log_matches_state_witness :
  logged_requests (events poll_final)
  = (if decryptionPending poll_final || finalized poll_final
     then [decryptionRequestId poll_final] else []) ∧
  logged_finalizations (events poll_final)
  = (if finalized poll_final then [_clearTallies poll_final] else []).
Proof. exact (reveal_log_matches_state 5001 poll_final reachable_poll_final). Defined.

(** ** Deployment, completely *)

(** X18: when a deployment goes through.  The constructor succeeds exactly when
    there are at least two labels, as many descriptions as labels, a
    non-zero duration, and an end time [timestamp + duration] below 2^256;
    when only the last condition fails the checked addition reverts with a
    panic, so [endTime] never wraps around below [startTime]. *)
Theorem constructor_succeeds_iff e name headline desc labels descs duration :
  ((∃ p, constructor e name headline desc labels descs duration = Ok p)
   ↔ ((2 ≤ length labels)%nat ∧ length descs = length labels ∧ duration ≠ 0 ∧
      block_timestamp e + duration < MAX_UINT256))
  ∧ ((2 ≤ length labels)%nat → length descs = length labels → duration ≠ 0 →
     MAX_UINT256 ≤ block_timestamp e + duration →
     constructor e name headline desc labels descs duration = Revert Panic).
Proof.
  split; [split|].
  - intros [p Hp]. apply constructor_Ok in Hp as (? & ? & ? & ? & _). done.
  - intros (Hn & Hl & Hz & Ho). unfold constructor.
    rewrite bool_decide_eq_false_2 by lia.
    rewrite bool_decide_eq_false_2 by (intros ?; done).
    rewrite (proj2 (Z.eqb_neq _ _) Hz), (proj2 (Z.leb_gt _ _) Ho). eauto.
  - intros Hn Hl Hz Ho. unfold constructor.
    rewrite bool_decide_eq_false_2 by lia.
    rewrite bool_decide_eq_false_2 by (intros ?; done).
    by rewrite (proj2 (Z.eqb_neq _ _) Hz), (proj2 (Z.leb_le _ _) Ho).
Qed.

Lemma constructor_succeeds_iff_witness :
  ((∃ p, constructor (Demo.at_time 1000 Demo.deployer) "P" "H" "D"
           ["X"; "Y"]%string ["x"; "y"]%string (MAX_UINT256 - 1000) = Ok p)
   ↔ ((2 ≤ length ["X"; "Y"]%string)%nat ∧
      length ["x"; "y"]%string = length ["X"; "Y"]%string ∧
      MAX_UINT256 - 1000 ≠ 0 ∧ 1000 + (MAX_UINT256 - 1000) < MAX_UINT256))
  ∧ constructor (Demo.at_time 1000 Demo.deployer) "P" "H" "D"
      ["X"; "Y"]%string ["x"; "y"]%string (MAX_UINT256 - 1000) = Revert Panic.
Proof.
  destruct (constructor_succeeds_iff (Demo.at_time 1000 Demo.deployer) "P" "H" "D"
              ["X"; "Y"]%string ["x"; "y"]%string (MAX_UINT256 - 1000))
    as [Hiff Hpanic].
  split; [exact Hiff|]. apply Hpanic; [simpl; lia|done|done|done].
Defined.
